(** * IRTK registration utilities (cardiac branch): a shallow embedding

    The functions of [registration/src/irtkUtil.cc] and the parameter
    interface of [registration/include/irtkDemonsRegistration.h], written as
    Rocq functions, followed by the properties the design document states
    about them.

    Conventions.
    - A C++ [int] is a [Z].  Signed overflow is undefined behaviour in C++,
      so the embedding describes the executions that stay inside the range of
      [int]; no wrap-around is introduced for it.
    - A grey pixel is a 16-bit [short].  The distance that [irtkPadding]
      stores in a voxel can leave that range and is converted on the store
      ([irtkGreyPixel]).
    - A [for] loop with a fixed bound is [for_loop]; a loop whose number of
      iterations is decided while it runs takes a [fuel : nat] and answers
      [None] when the fuel is used up.  Every theorem about such a loop shows
      that the stated amount of fuel yields [Some] result.
    - The text written to [cout] is not part of the embedding; the text
      written to [cerr] by [read_line] is. *)

From Stdlib Require Import ZArith QArith Lia List Bool Ascii String.
From Stdlib Require Import Numbers.DecimalString Numbers.DecimalZ.
From Stdlib Require Import Floats.SpecFloat.
From stdpp Require Import base tactics option list list_numbers sets.

Local Open Scope Z_scope.

(** ** Counted loops *)

(** [for (i = lo; i < hi; i++) s = body i s] *)
Definition for_loop {S : Type} (lo hi : Z) (body : Z → S → S) (s : S) : S :=
  foldl (λ acc i, body i acc) s (seqZ lo (hi - lo)).

(** The same loop when the body itself contains a fuelled loop. *)
Definition for_loopM {S : Type} (lo hi : Z) (body : Z → S → option S)
    (s : S) : option S :=
  foldl (λ acc i, acc ≫= body i) (Some s) (seqZ lo (hi - lo)).

(** ** Grey images *)

(** Modelled from the spec: [irtkGreyImage] and [irtkGreyPixel] are declared
    in irtkImage.h, which is not among the sources.  The design document
    describes a volume as a "4D array (x,y,z,t) of real or integer intensity
    values" with "accessors for dimensions ... and per-voxel intensity
    lookup/assignment by integer index".  A grey pixel is an integer; the
    voxels are one buffer with [x] running fastest, which is what
    [GetPointerToVoxels] walks through.  The pixel type is IRTK's 16-bit
    [short]: where the code stores an [int] that can leave its range, the
    distance of [irtkPadding], the embedding narrows it with
    [irtkGreyPixel]. *)
Record irtkGreyImage : Type := mkImage {
  GetX : Z;
  GetY : Z;
  GetZ : Z;
  GetT : Z;
  voxels : list Z
}.

Definition GetNumberOfVoxels (image : irtkGreyImage) : Z :=
  GetX image * GetY image * GetZ image * GetT image.

(** An image as its constructor leaves it: non-negative extents, and a
    buffer with one entry per voxel. *)
Definition wf_image (image : irtkGreyImage) : Prop :=
  0 ≤ GetX image ∧ 0 ≤ GetY image ∧ 0 ≤ GetZ image ∧ 0 ≤ GetT image ∧
  Z.of_nat (length (voxels image)) = GetNumberOfVoxels image.

Definition inside (image : irtkGreyImage) (i j k t : Z) : Prop :=
  (0 ≤ i < GetX image) ∧ (0 ≤ j < GetY image) ∧
  (0 ≤ k < GetZ image) ∧ (0 ≤ t < GetT image).

Definition insideb (image : irtkGreyImage) (i j k t : Z) : bool :=
  (0 <=? i) && (i <? GetX image) && (0 <=? j) && (j <? GetY image) &&
  (0 <=? k) && (k <? GetZ image) && (0 <=? t) && (t <? GetT image).

Definition VoxelToIndex (image : irtkGreyImage) (i j k t : Z) : Z :=
  ((t * GetZ image + k) * GetY image + j) * GetX image + i.

(** [image(i, j, k, t)] read.  An index outside the image is undefined in
    C++; the embedding answers 0 there. *)
Definition Get (image : irtkGreyImage) (i j k t : Z) : Z :=
  if insideb image i j k t
  then default 0 (voxels image !! Z.to_nat (VoxelToIndex image i j k t))
  else 0.

(** [image(i, j, k, t) = v]. *)
Definition Put (image : irtkGreyImage) (i j k t v : Z) : irtkGreyImage :=
  if insideb image i j k t
  then mkImage (GetX image) (GetY image) (GetZ image) (GetT image)
         (<[Z.to_nat (VoxelToIndex image i j k t) := v]> (voxels image))
  else image.

(** [irtkGreyPixel(v)]: an [int] converted to the pixel type, a 16-bit
    [short].  A value in the range of the type is kept and any other value
    wraps modulo 65536, the conversion C++20 fixes and the compilers before
    it implement. *)
Definition irtkGreyPixel (v : Z) : Z := (v + 32768) mod 65536 - 32768.

(** ** irtkPadding(image, padding) *)

(** First loop nest: [m] counts the voxels that are not negative, [n] the
    negative ones. *)
Definition count_padding (image : irtkGreyImage) : Z * Z :=
  for_loop 0 (GetT image) (λ t,
    for_loop 0 (GetX image) (λ i,
      for_loop 0 (GetY image) (λ j,
        for_loop 0 (GetZ image) (λ k '(m, n),
          if Get image i j k t <? 0 then (m, n + 1) else (m + 1, n)))))
    (0, 0).

(** [for (l = i; l < image.GetX(); l++) if (image(l, j, k, t) != -1) break;]
    and the value of [l] after it. *)
Fixpoint scan_run (fuel : nat) (image : irtkGreyImage) (j k t l : Z)
    : option Z :=
  match fuel with
  | O => None
  | S fuel' =>
      if l <? GetX image then
        if negb (Get image l j k t =? -1) then Some l
        else scan_run fuel' image j k t (l + 1)
      else Some l
  end.

(** [for (p = i; p < l; p++) image(p, j, k, t) = - (l - p);] where the
    assignment converts the [int] to the pixel type. *)
Definition fill_run (image : irtkGreyImage) (j k t i l : Z) : irtkGreyImage :=
  for_loop i l (λ p img, Put img p j k t (irtkGreyPixel (- (l - p)))) image.

(** The loop over [i] of the second nest, entered with the loop variable at
    [i].  Its body moves [i] to [l - 1] after a run, and the loop header adds
    one. *)
Fixpoint row_loop (fuel : nat) (image : irtkGreyImage) (j k t i : Z)
    : option irtkGreyImage :=
  match fuel with
  | O => None
  | S fuel' =>
      if i <? GetX image then
        if Get image i j k t =? -1 then
          l ← scan_run fuel image j k t i;
          let image' := fill_run image j k t i l in
          let i' := l - 1 in
          row_loop fuel' image' j k t (i' + 1)
        else row_loop fuel' image j k t (i + 1)
      else Some image
  end.

Definition calculate_distances (fuel : nat) (image : irtkGreyImage)
    : option irtkGreyImage :=
  for_loopM 0 (GetT image) (λ t,
    for_loopM 0 (GetZ image) (λ k,
      for_loopM 0 (GetY image) (λ j img, row_loop fuel img j k t 0)))
    image.

Definition irtkPadding (fuel : nat) (image : irtkGreyImage) (padding : Z)
    : option irtkGreyImage :=
  let '(m, n) := count_padding image in
  if 0 <? n then calculate_distances fuel image else Some image.

(** ** irtkPadding(image, padding, ffd) *)

Inductive _Status : Type := _Active | _Passive.

(** Modelled from the spec: [irtkFreeFormTransformation3D] is declared in
    irtkTransformation.h, which is not among the sources.  The design
    document says the lattice "exposes control-point get/put, per-point
    active/passive status, index<->lattice coordinate conversion, and a
    bounding-box query (which voxels are influenced by a given control
    point)".  The record holds what [irtkPadding] uses of it; the two
    geometric queries are fields, so every lattice geometry is covered. *)
Module FFD.
Record t : Type := mk {
  GetX : Z;
  GetY : Z;
  GetZ : Z;
  LatticeToIndex : Z → Z → Z → Z;
  BoundingBox : irtkGreyImage → Z → (Z * Z * Z) * (Z * Z * Z);
  GetStatus : Z → Z → Z → _Status
}.

(** [ffd->PutStatus(i, j, k, s)] *)
Definition PutStatus (ffd : t) (i j k : Z) (s : _Status) : t :=
  mk (GetX ffd) (GetY ffd) (GetZ ffd) (LatticeToIndex ffd) (BoundingBox ffd)
     (λ i' j' k',
        if (i' =? i) && (j' =? j) && (k' =? k) then s
        else GetStatus ffd i' j' k').
End FFD.

(** The four inner loops: [ok] after them. *)
Definition box_above (image : irtkGreyImage) (padding : Z)
    (x1 y1 z1 x2 y2 z2 : Z) : bool :=
  for_loop 0 (GetT image) (λ t,
    for_loop z1 (z2 + 1) (λ z,
      for_loop y1 (y2 + 1) (λ y,
        for_loop x1 (x2 + 1) (λ x ok,
          if padding <? Get image x y z t then true else ok))))
    false.

(** The body of the loops over the lattice, at control point [(i, j, k)]. *)
Definition pad_control_point (image : irtkGreyImage) (padding : Z)
    (i j k : Z) (ffd : FFD.t) : FFD.t :=
  let index := FFD.LatticeToIndex ffd i j k in
  let '((x1, y1, z1), (x2, y2, z2)) := FFD.BoundingBox ffd image index in
  let ok := box_above image padding x1 y1 z1 x2 y2 z2 in
  if negb ok then FFD.PutStatus ffd i j k _Passive else ffd.

Definition irtkPadding_ffd (image : irtkGreyImage) (padding : Z)
    (ffd : FFD.t) : FFD.t :=
  for_loop 0 (FFD.GetX ffd) (λ i,
    for_loop 0 (FFD.GetY ffd) (λ j,
      for_loop 0 (FFD.GetZ ffd) (λ k ffd,
        pad_control_point image padding i j k ffd)))
    ffd.

(** ** GuessResolution *)

(** A [double] is an IEEE 754 value, [spec_float]; [a >= b] and [a > b] are
    the IEEE comparisons, false as soon as one side is not a number. *)
Definition double : Type := spec_float.
Definition double_ge (a b : double) : bool := SFleb b a.
Definition double_gt (a b : double) : bool := SFltb b a.

Definition GuessResolution (xsize ysize zsize : double) : double :=
  if double_ge xsize ysize && double_ge xsize zsize then xsize
  else if double_ge ysize xsize && double_ge ysize zsize then ysize
  else zsize.

(** The overload with two arguments. *)
Definition GuessResolution2 (xsize ysize : double) : double :=
  if double_gt xsize ysize then xsize else ysize.

(** ** GuessPadding *)

Section GuessPadding.
(** [MIN_GREY] is a macro of irtkImage.h, not among the sources; it is
    taken as a parameter. *)
Variable MIN_GREY : Z.

Definition GuessPadding (image : irtkGreyImage) : Z :=
  let X1 := GetX image - 1 in
  let Y1 := GetY image - 1 in
  let Z1 := GetZ image - 1 in
  let at_ i j k := Get image i j k 0 in
  let padding := true in
  let padding := if negb (at_ 0 0 0 =? at_ X1 0 0) then false else padding in
  let padding := if negb (at_ 0 0 0 =? at_ 0 Y1 0) then false else padding in
  let padding := if negb (at_ 0 0 0 =? at_ 0 0 Z1) then false else padding in
  let padding := if negb (at_ 0 0 0 =? at_ X1 Y1 0) then false else padding in
  let padding := if negb (at_ 0 0 0 =? at_ 0 Y1 Z1) then false else padding in
  let padding := if negb (at_ 0 0 0 =? at_ X1 0 Z1) then false else padding in
  let padding := if negb (at_ 0 0 0 =? at_ X1 Y1 Z1) then false else padding in
  if negb padding then MIN_GREY else at_ 0 0 0.
End GuessPadding.

(** ** irtkCalculateNumberOfBins *)

(** [int(ceil(a/(double)b))] for [b > 0].  Both operands are 32-bit
    integers, so the conversions to [double] are exact and the correctly
    rounded quotient lies on the same side of every integer as the exact
    one: the result is the ceiling of the rational [a/b]. *)
Definition ceil_div (a b : Z) : Z := - ((- a) / b).

(** [int(v/(double)width)]: the quotient truncated towards zero. *)
Definition trunc_div (v width : Z) : Z := v ÷ width.

(** [while (int(ceil(range/(double)width)) > maxbin) width++;] *)
Fixpoint widen (fuel : nat) (range maxbin width : Z) : option Z :=
  match fuel with
  | O => None
  | S fuel' =>
      if maxbin <? ceil_div range width
      then widen fuel' range maxbin (width + 1)
      else Some width
  end.

(** The part the two overloads share: [nbins] and [width]. *)
Definition choose_bins (fuel : nat) (maxbin min max : Z) : option (Z * Z) :=
  let range := max - min + 1 in
  let nbins := max - min + 1 in
  let width := 1 in
  if 0 <? maxbin then
    width ← widen fuel range maxbin width;
    Some (ceil_div range width, width)
  else Some (nbins, width).

(** The loop over the voxel buffer; [ptr] is the index [i]. *)
Definition rescale (width : Z) (image : irtkGreyImage) : irtkGreyImage :=
  mkImage (GetX image) (GetY image) (GetZ image) (GetT image)
    (for_loop 0 (GetNumberOfVoxels image) (λ i buf,
       match buf !! Z.to_nat i with
       | Some v => if 0 <? v then <[Z.to_nat i := trunc_div v width]> buf
                   else buf
       | None => buf
       end) (voxels image)).

Definition irtkCalculateNumberOfBins (fuel : nat) (image : irtkGreyImage)
    (maxbin min max : Z) : option (Z * irtkGreyImage) :=
  '(nbins, width) ← choose_bins fuel maxbin min max;
  Some (nbins, rescale width image).

(** The overload for an array of [n] images. *)
Definition irtkCalculateNumberOfBins_n (fuel : nat)
    (image : list irtkGreyImage) (maxbin min max n : Z)
    : option (Z * list irtkGreyImage) :=
  '(nbins, width) ← choose_bins fuel maxbin min max;
  Some (nbins,
        for_loop 0 n (λ j imgs,
          match imgs !! Z.to_nat j with
          | Some img => <[Z.to_nat j := rescale width img]> imgs
          | None => imgs
          end) image).

(** ** read_line *)

Definition NUL : ascii := "000"%char.
Definition TAB : ascii := "009"%char.
Definition LF : ascii := "010"%char.
Definition CR : ascii := "013"%char.

(** The part of [std::istream] that [read_line] uses: the characters not yet
    extracted and two state bits.  [eof()] reads [eofbit]; the stream is
    good when neither bit is set. *)
Record istream : Type := mkStream {
  pending : list ascii;
  eofbit : bool;
  failbit : bool
}.

Definition eof (in_ : istream) : bool := eofbit in_.
Definition good (in_ : istream) : bool := negb (eofbit in_ || failbit in_).

(** The extraction loop of [getline(s, n)] on a good stream, with [room]
    places left in the array.  It answers the characters stored, the number
    of characters extracted, what is left of the input, and the bits to set
    as (eofbit, failbit).  The three ways to stop are tried in the order of
    the C++ standard: end of input; the next character is the newline, which
    is extracted and not stored; no room left. *)
Fixpoint extract (room : nat) (cs : list ascii)
    : list ascii * nat * list ascii * (bool * bool) :=
  match cs with
  | [] => ([], 0%nat, [], (true, false))
  | c :: cs' =>
      if Ascii.eqb c LF then ([], 1%nat, cs', (false, false))
      else match room with
           | O => ([], 0%nat, cs, (false, true))
           | S room' =>
               let '(stored, count, rest, bits) := extract room' cs' in
               (c :: stored, S count, rest, bits)
           end
  end.

(** [in.getline(buffer, n)] for [n > 0]: the string left in the buffer and
    the stream afterwards.  On a stream that is not good nothing is
    extracted, the buffer receives the empty string and [failbit] is set.
    [failbit] is also set when no character was extracted. *)
Definition getline (in_ : istream) (n : nat) : list ascii * istream :=
  if good in_ then
    let '(stored, count, rest, (e, f)) := extract (n - 1) (pending in_) in
    (stored, mkStream rest e (f || (count =? 0)%nat))
  else ([], mkStream (pending in_) (eofbit in_) true).

(** A buffer is the list of characters [getline] stored; the terminating
    null character follows them.  [strlen] stops at the first null. *)
Fixpoint strlen (buffer : list ascii) : nat :=
  match buffer with
  | [] => 0
  | c :: rest => if Ascii.eqb c NUL then 0 else S (strlen rest)
  end.

(** [buffer[p]], the terminator included. *)
Definition char_at (buffer : list ascii) (p : nat) : ascii := nth p buffer NUL.

(** [strchr(buffer, c)] for [c] not null: the offset of the first [c] in the
    string, or [None] for the null pointer. *)
Fixpoint strchr (buffer : list ascii) (c : ascii) : option nat :=
  match buffer with
  | [] => None
  | d :: rest =>
      if Ascii.eqb d NUL then None
      else if Ascii.eqb d c then Some 0%nat
      else S <$> strchr rest c
  end.

(** The second [do ... while] after its first [buffer2++]: the pointer,
    at offset [p] with [rest] the characters from there on, moves on while
    it points at a space or a tab. *)
Fixpoint skip_blanks (rest : list ascii) (p : nat) : nat :=
  match rest with
  | [] => p
  | c :: rest' =>
      if Ascii.eqb c " " || Ascii.eqb c TAB then skip_blanks rest' (S p)
      else p
  end.

(** How a call ends: it returns, with the buffer, the pointer [buffer2] (an
    offset into the buffer, or [None] while it still has the caller's
    value) and the stream as they are then; or it ends the process. *)
Inductive outcome : Type :=
  | Returned (result : Z) (buffer1 : list ascii) (buffer2 : option nat)
             (in_ : istream)
  | Exited (status : Z) (cerr : string).

Definition no_valid_line : string :=
  String.append "No valid line format" (String LF EmptyString).

(** The test of the first [do ... while]. *)
Definition skipped (buffer1 : list ascii) : bool :=
  let c := char_at buffer1 0 in
  (strlen buffer1 =? 0)%nat || Ascii.eqb c "#" || Ascii.eqb c CR.

Fixpoint read_line (fuel : nat) (in_ : istream) (buffer1 : list ascii)
    (buffer2 : option nat) : option outcome :=
  match fuel with
  | O => None
  | S fuel' =>
      if eof in_ then Some (Returned 0 buffer1 buffer2 in_)
      else
        let '(buffer1, in_) := getline in_ 255 in
        if skipped buffer1 then read_line fuel' in_ buffer1 buffer2
        else
          match strchr buffer1 "=" with
          | None => Some (Exited 1 no_valid_line)
          | Some e =>
              let buffer2 := skip_blanks (drop (S e) buffer1) (S e) in
              Some (Returned (Z.of_nat (strlen buffer1)) buffer1
                      (Some buffer2) in_)
          end
  end.

(** A stream, not read yet, over the given lines of text, each ended by a
    newline. *)
Definition text (lines : list string) : list ascii :=
  flat_map (λ s, list_ascii_of_string s ++ [LF]) lines.

Definition stream_of (lines : list string) : istream :=
  mkStream (text lines) false false.

(** ** irtkDemonsRegistration.h *)

Inductive irtkDemonsMode : Type := _AdditiveDemons | _CompositiveDemons.

(** ** The force of the additive mode *)

(** What [Force] has at hand at one voxel [v]: the target intensity, the
    source intensity sampled at the displaced position [v + d(v)], the
    gradient of the target at [v], the gradient of the source at the
    displaced position, and whether the voxel is padding in either image. *)
Record voxel_sample : Type := mkSample {
  target_value : Q;
  source_value : Q;
  target_gradient : Q * Q * Q;
  source_gradient : Q * Q * Q;
  is_padding : bool
}.

(** Modelled from the spec: [irtkDemonsRegistration::Force] is declared in
    irtkDemonsRegistration.h and its body is not among the sources.  The
    design document gives the force of the additive mode as "(target(v) -
    source(v + d(v))) x gradient(v) / (|gradient(v)|^2 + (target(v) -
    source(v+d(v)))^2)", up to a factor, with "an epsilon floor" guarding the
    denominator ("force treated as zero") and "voxels marked as padding in
    either image are excluded (force = 0)"; the compositive mode "evaluates
    source gradient at the warped position instead of target gradient".
    The numbers are rationals. *)
Definition Force_at (mode : irtkDemonsMode) (factor epsilon : Q)
    (v : voxel_sample) : Q * Q * Q :=
  let diff := (target_value v - source_value v)%Q in
  let '(gx, gy, gz) :=
    match mode with
    | _AdditiveDemons => target_gradient v
    | _CompositiveDemons => source_gradient v
    end in
  let denominator := (gx * gx + gy * gy + gz * gz + diff * diff)%Q in
  if is_padding v then (0, 0, 0)%Q
  else if Qle_bool denominator epsilon then (0, 0, 0)%Q
  else ((factor * diff * gx / denominator)%Q,
        (factor * diff * gy / denominator)%Q,
        (factor * diff * gz / denominator)%Q).

(** [Force] over the voxels of the level at hand. *)
Definition Force (mode : irtkDemonsMode) (factor epsilon : Q)
    (samples : list voxel_sample) : list (Q * Q * Q) :=
  Force_at mode factor epsilon <$> samples.

(** The three components are zero. *)
Definition zero_vector (f : Q * Q * Q) : Prop :=
  let '(fx, fy, fz) := f in (fx == 0 ∧ fy == 0 ∧ fz == 0)%Q.

(** ** The parameter file *)

(** An [int] in decimal. *)
Definition print_int (z : Z) : string := NilEmpty.string_of_int (Z.to_int z).
Definition parse_int (value : list ascii) : option Z :=
  Z.of_int <$> NilEmpty.int_of_string (string_of_list_ascii value).

(** [_AdditiveDemons] is 0 and [_CompositiveDemons] is 1. *)
Definition mode_code (mode : irtkDemonsMode) : Z :=
  match mode with _AdditiveDemons => 0 | _CompositiveDemons => 1 end.

(** The text of a line before offset [e], without the blanks at its end. *)
Fixpoint rtrim (key : list ascii) : list ascii :=
  match key with
  | [] => []
  | c :: rest =>
      match rtrim rest with
      | [] => if Ascii.eqb c " " || Ascii.eqb c TAB then [] else [c]
      | rest' => c :: rest'
      end
  end.

Definition key_of (buffer1 : list ascii) : string :=
  match strchr buffer1 "=" with
  | Some e => string_of_list_ascii (rtrim (take e buffer1))
  | None => EmptyString
  end.

(** The string [buffer2] points to. *)
Definition value_of (buffer1 : list ascii) (buffer2 : option nat) : list ascii :=
  match buffer2 with
  | Some p => take (strlen (drop p buffer1)) (drop p buffer1)
  | None => []
  end.

Section ParameterFile.
(** The type of the parameters that are [double] in the header, and their
    text form: [operator<<] and the parsing of a number are not among the
    sources and depend on the formatting of floating-point numbers, so they
    are parameters here. *)
Variable D : Type.
Variable print_double : D → string.
Variable parse_double : list ascii → option D.

(** The parameters of irtkDemonsRegistration.h that the design document
    lists as the registration parameters. *)
Record RegistrationParameters : Type := mkParameters {
  _Mode : irtkDemonsMode;
  _TargetBlurring : D;
  _TargetResolution : D;
  _TargetPadding : Z;
  _SourceBlurring : D;
  _SourceResolution : D;
  _SourcePadding : Z;
  _NumberOfLevels : Z;
  _NumberOfIterations : Z;
  _StepSize : D;
  _Epsilon : D;
  _ReductionFactor : D;
  _Smoothing : D;
  _InterpolationMode : Z
}.

Definition SetMode (x : irtkDemonsMode) (r : RegistrationParameters)
    : RegistrationParameters :=
  mkParameters x (_TargetBlurring r) (_TargetResolution r) (_TargetPadding
    r) (_SourceBlurring r) (_SourceResolution r) (_SourcePadding r)
    (_NumberOfLevels r) (_NumberOfIterations r) (_StepSize r) (_Epsilon r)
    (_ReductionFactor r) (_Smoothing r) (_InterpolationMode r).

Definition SetTargetBlurring (x : D) (r : RegistrationParameters)
    : RegistrationParameters :=
  mkParameters (_Mode r) x (_TargetResolution r) (_TargetPadding r)
    (_SourceBlurring r) (_SourceResolution r) (_SourcePadding r)
    (_NumberOfLevels r) (_NumberOfIterations r) (_StepSize r) (_Epsilon r)
    (_ReductionFactor r) (_Smoothing r) (_InterpolationMode r).

Definition SetTargetResolution (x : D) (r : RegistrationParameters)
    : RegistrationParameters :=
  mkParameters (_Mode r) (_TargetBlurring r) x (_TargetPadding r)
    (_SourceBlurring r) (_SourceResolution r) (_SourcePadding r)
    (_NumberOfLevels r) (_NumberOfIterations r) (_StepSize r) (_Epsilon r)
    (_ReductionFactor r) (_Smoothing r) (_InterpolationMode r).

Definition SetTargetPadding (x : Z) (r : RegistrationParameters)
    : RegistrationParameters :=
  mkParameters (_Mode r) (_TargetBlurring r) (_TargetResolution r) x
    (_SourceBlurring r) (_SourceResolution r) (_SourcePadding r)
    (_NumberOfLevels r) (_NumberOfIterations r) (_StepSize r) (_Epsilon r)
    (_ReductionFactor r) (_Smoothing r) (_InterpolationMode r).

Definition SetSourceBlurring (x : D) (r : RegistrationParameters)
    : RegistrationParameters :=
  mkParameters (_Mode r) (_TargetBlurring r) (_TargetResolution r)
    (_TargetPadding r) x (_SourceResolution r) (_SourcePadding r)
    (_NumberOfLevels r) (_NumberOfIterations r) (_StepSize r) (_Epsilon r)
    (_ReductionFactor r) (_Smoothing r) (_InterpolationMode r).

Definition SetSourceResolution (x : D) (r : RegistrationParameters)
    : RegistrationParameters :=
  mkParameters (_Mode r) (_TargetBlurring r) (_TargetResolution r)
    (_TargetPadding r) (_SourceBlurring r) x (_SourcePadding r)
    (_NumberOfLevels r) (_NumberOfIterations r) (_StepSize r) (_Epsilon r)
    (_ReductionFactor r) (_Smoothing r) (_InterpolationMode r).

Definition SetSourcePadding (x : Z) (r : RegistrationParameters)
    : RegistrationParameters :=
  mkParameters (_Mode r) (_TargetBlurring r) (_TargetResolution r)
    (_TargetPadding r) (_SourceBlurring r) (_SourceResolution r) x
    (_NumberOfLevels r) (_NumberOfIterations r) (_StepSize r) (_Epsilon r)
    (_ReductionFactor r) (_Smoothing r) (_InterpolationMode r).

Definition SetNumberOfLevels (x : Z) (r : RegistrationParameters)
    : RegistrationParameters :=
  mkParameters (_Mode r) (_TargetBlurring r) (_TargetResolution r)
    (_TargetPadding r) (_SourceBlurring r) (_SourceResolution r)
    (_SourcePadding r) x (_NumberOfIterations r) (_StepSize r) (_Epsilon r)
    (_ReductionFactor r) (_Smoothing r) (_InterpolationMode r).

Definition SetNumberOfIterations (x : Z) (r : RegistrationParameters)
    : RegistrationParameters :=
  mkParameters (_Mode r) (_TargetBlurring r) (_TargetResolution r)
    (_TargetPadding r) (_SourceBlurring r) (_SourceResolution r)
    (_SourcePadding r) (_NumberOfLevels r) x (_StepSize r) (_Epsilon r)
    (_ReductionFactor r) (_Smoothing r) (_InterpolationMode r).

Definition SetStepSize (x : D) (r : RegistrationParameters)
    : RegistrationParameters :=
  mkParameters (_Mode r) (_TargetBlurring r) (_TargetResolution r)
    (_TargetPadding r) (_SourceBlurring r) (_SourceResolution r)
    (_SourcePadding r) (_NumberOfLevels r) (_NumberOfIterations r) x
    (_Epsilon r) (_ReductionFactor r) (_Smoothing r) (_InterpolationMode r).

Definition SetEpsilon (x : D) (r : RegistrationParameters)
    : RegistrationParameters :=
  mkParameters (_Mode r) (_TargetBlurring r) (_TargetResolution r)
    (_TargetPadding r) (_SourceBlurring r) (_SourceResolution r)
    (_SourcePadding r) (_NumberOfLevels r) (_NumberOfIterations r)
    (_StepSize r) x (_ReductionFactor r) (_Smoothing r) (_InterpolationMode
    r).

Definition SetReductionFactor (x : D) (r : RegistrationParameters)
    : RegistrationParameters :=
  mkParameters (_Mode r) (_TargetBlurring r) (_TargetResolution r)
    (_TargetPadding r) (_SourceBlurring r) (_SourceResolution r)
    (_SourcePadding r) (_NumberOfLevels r) (_NumberOfIterations r)
    (_StepSize r) (_Epsilon r) x (_Smoothing r) (_InterpolationMode r).

Definition SetSmoothing (x : D) (r : RegistrationParameters)
    : RegistrationParameters :=
  mkParameters (_Mode r) (_TargetBlurring r) (_TargetResolution r)
    (_TargetPadding r) (_SourceBlurring r) (_SourceResolution r)
    (_SourcePadding r) (_NumberOfLevels r) (_NumberOfIterations r)
    (_StepSize r) (_Epsilon r) (_ReductionFactor r) x (_InterpolationMode r).

Definition SetInterpolationMode (x : Z) (r : RegistrationParameters)
    : RegistrationParameters :=
  mkParameters (_Mode r) (_TargetBlurring r) (_TargetResolution r)
    (_TargetPadding r) (_SourceBlurring r) (_SourceResolution r)
    (_SourcePadding r) (_NumberOfLevels r) (_NumberOfIterations r)
    (_StepSize r) (_Epsilon r) (_ReductionFactor r) (_Smoothing r) x.

(** Modelled from the spec: the bodies of [irtkDemonsRegistration::Write]
    and [irtkDemonsRegistration::Read] are not among the sources.  The
    design document describes the parameter file as "text, line-oriented:
    each non-empty, non-comment (#-prefixed) line has the form Key = Value"
    and says that "Read/Write round-trip the full RegistrationParameters set
    plus mode flag and level count".  [Write] is the text it leaves in the
    file: a comment, an empty line, and one line per parameter. *)
Definition parameter_line (key value : string) : string :=
  String.append key (String.append " = " value).

Definition header : list string :=
  [ "#"%string; "# Registration parameters"%string; "#"%string; EmptyString ].

Definition Write (r : RegistrationParameters) : list string :=
  header ++
  [ parameter_line "Demons mode" (print_int (mode_code (_Mode r)));
    parameter_line "Target blurring (in mm)" (print_double (_TargetBlurring r));
    parameter_line "Target resolution (in mm)"
      (print_double (_TargetResolution r));
    parameter_line "Target padding value" (print_int (_TargetPadding r));
    parameter_line "Source blurring (in mm)" (print_double (_SourceBlurring r));
    parameter_line "Source resolution (in mm)"
      (print_double (_SourceResolution r));
    parameter_line "Source padding value" (print_int (_SourcePadding r));
    parameter_line "No. of resolution levels" (print_int (_NumberOfLevels r));
    parameter_line "No. of iterations" (print_int (_NumberOfIterations r));
    parameter_line "Step size" (print_double (_StepSize r));
    parameter_line "Epsilon" (print_double (_Epsilon r));
    parameter_line "Reduction factor" (print_double (_ReductionFactor r));
    parameter_line "Smoothing" (print_double (_Smoothing r));
    parameter_line "Interpolation mode" (print_int (_InterpolationMode r)) ].

(** What [Read] does with one line [Key = Value]: the parameter named by
    the key receives the value; a key that names no parameter, or a value
    that is not a number, leaves the parameters as they are. *)
Definition set_parameter (key : string) (value : list ascii)
    (r : RegistrationParameters) : RegistrationParameters :=
  let int_ (set : Z → RegistrationParameters → RegistrationParameters) :=
    match parse_int value with Some z => set z r | None => r end in
  let double_ (set : D → RegistrationParameters → RegistrationParameters) :=
    match parse_double value with Some d => set d r | None => r end in
  if String.eqb key "Demons mode" then
    match parse_int value with
    | Some 0 => SetMode _AdditiveDemons r
    | Some 1 => SetMode _CompositiveDemons r
    | _ => r
    end
  else if String.eqb key "Target blurring (in mm)" then double_ SetTargetBlurring
  else if String.eqb key "Target resolution (in mm)" then double_ SetTargetResolution
  else if String.eqb key "Target padding value" then int_ SetTargetPadding
  else if String.eqb key "Source blurring (in mm)" then double_ SetSourceBlurring
  else if String.eqb key "Source resolution (in mm)" then double_ SetSourceResolution
  else if String.eqb key "Source padding value" then int_ SetSourcePadding
  else if String.eqb key "No. of resolution levels" then int_ SetNumberOfLevels
  else if String.eqb key "No. of iterations" then int_ SetNumberOfIterations
  else if String.eqb key "Step size" then double_ SetStepSize
  else if String.eqb key "Epsilon" then double_ SetEpsilon
  else if String.eqb key "Reduction factor" then double_ SetReductionFactor
  else if String.eqb key "Smoothing" then double_ SetSmoothing
  else if String.eqb key "Interpolation mode" then int_ SetInterpolationMode
  else r.

(** How [Read] ends. *)
Inductive read_result : Type :=
  | ReadDone (r : RegistrationParameters)
  | ReadExited (status : Z) (cerr : string).

(** [Read] on the stream of the opened file: [read_line] until it answers
    0, each line handed to [set_parameter]. *)
Fixpoint Read_lines (fuel : nat) (in_ : istream) (buffer1 : list ascii)
    (buffer2 : option nat) (r : RegistrationParameters) : option read_result :=
  match fuel with
  | O => None
  | S fuel' =>
      match read_line fuel in_ buffer1 buffer2 with
      | None => None
      | Some (Exited status cerr) => Some (ReadExited status cerr)
      | Some (Returned n buffer1 buffer2 in_) =>
          if n =? 0 then Some (ReadDone r)
          else Read_lines fuel' in_ buffer1 buffer2
                 (set_parameter (key_of buffer1) (value_of buffer1 buffer2) r)
      end
  end.

Definition Read (fuel : nat) (file : list string) (r : RegistrationParameters)
    : option read_result :=
  Read_lines fuel (stream_of file) [] None r.

(** A value can stand on a line of the file: its text has no newline and no
    null character, does not start with a blank, and leaves room for the
    key in the 254 characters of a line. *)
Definition token (value : string) : bool :=
  let cs := list_ascii_of_string value in
  forallb (λ c, negb (Ascii.eqb c LF) && negb (Ascii.eqb c NUL)) cs &&
  negb (Ascii.eqb (char_at cs 0) " " || Ascii.eqb (char_at cs 0) TAB) &&
  (length cs <=? 200)%nat.

Definition valid_parameters (r : RegistrationParameters) : bool :=
  token (print_int (mode_code (_Mode r))) &&
  token (print_double (_TargetBlurring r)) &&
  token (print_double (_TargetResolution r)) &&
  token (print_int (_TargetPadding r)) &&
  token (print_double (_SourceBlurring r)) &&
  token (print_double (_SourceResolution r)) &&
  token (print_int (_SourcePadding r)) &&
  token (print_int (_NumberOfLevels r)) &&
  token (print_int (_NumberOfIterations r)) &&
  token (print_double (_StepSize r)) &&
  token (print_double (_Epsilon r)) &&
  token (print_double (_ReductionFactor r)) &&
  token (print_double (_Smoothing r)) &&
  token (print_int (_InterpolationMode r)).
End ParameterFile.

(** ** Vocabulary of the statements *)

(** The eight corners of the volume, in frame 0. *)
Definition corners (image : irtkGreyImage) : list (Z * Z * Z) :=
  let X1 := GetX image - 1 in
  let Y1 := GetY image - 1 in
  let Z1 := GetZ image - 1 in
  [(0, 0, 0); (X1, 0, 0); (0, Y1, 0); (0, 0, Z1);
   (X1, Y1, 0); (0, Y1, Z1); (X1, 0, Z1); (X1, Y1, Z1)].

Definition corner_value (image : irtkGreyImage) (c : Z * Z * Z) : Z :=
  let '(i, j, k) := c in Get image i j k 0.

Definition corners_equal (image : irtkGreyImage) : Prop :=
  ∀ c c', c ∈ corners image → c' ∈ corners image →
          corner_value image c = corner_value image c'.

Definition is_nan (x : double) : bool :=
  match x with S754_nan => true | _ => false end.

(** [r] is one of the values of [l] and none of them is above it. *)
Definition is_max_of (r : double) (l : list double) : Prop :=
  r ∈ l ∧ Forall (λ x, SFleb x r = true) l.

(** [c] is the ceiling of the rational [a / b], for [b > 0]. *)
Definition ceiling_of (a b c : Z) : Prop := b * (c - 1) < a ≤ b * c.

(** No voxel of the box, in any frame, is above [padding]. *)
Definition box_below (image : irtkGreyImage) (padding : Z)
    (box : (Z * Z * Z) * (Z * Z * Z)) : Prop :=
  let '((x1, y1, z1), (x2, y2, z2)) := box in
  ∀ x y z t, 0 ≤ t < GetT image → z1 ≤ z ≤ z2 → y1 ≤ y ≤ y2 → x1 ≤ x ≤ x2 →
             Get image x y z t ≤ padding.

(** The bounding box of control point [(i, j, k)]. *)
Definition control_box (image : irtkGreyImage) (ffd : FFD.t) (i j k : Z)
    : (Z * Z * Z) * (Z * Z * Z) :=
  FFD.BoundingBox ffd image (FFD.LatticeToIndex ffd i j k).

Definition in_lattice (ffd : FFD.t) (i j k : Z) : Prop :=
  (0 ≤ i < FFD.GetX ffd) ∧ (0 ≤ j < FFD.GetY ffd) ∧ (0 ≤ k < FFD.GetZ ffd).

(** The lattice as [ffd'] describes it is the one of [ffd]; of the control
    points in [visited], those whose box has no voxel above [padding] are
    passive, and every other control point has the status it has in
    [ffd]. *)
Definition padded (image : irtkGreyImage) (padding : Z) (ffd : FFD.t)
    (visited : Z → Z → Z → Prop) (ffd' : FFD.t) : Prop :=
  FFD.GetX ffd' = FFD.GetX ffd ∧ FFD.GetY ffd' = FFD.GetY ffd ∧
  FFD.GetZ ffd' = FFD.GetZ ffd ∧
  FFD.LatticeToIndex ffd' = FFD.LatticeToIndex ffd ∧
  FFD.BoundingBox ffd' = FFD.BoundingBox ffd ∧
  ∀ a b c,
    let below := visited a b c ∧
                 box_below image padding (control_box image ffd a b c) in
    (below → FFD.GetStatus ffd' a b c = _Passive) ∧
    (¬ below → FFD.GetStatus ffd' a b c = FFD.GetStatus ffd a b c).

Definition same_dims (image image' : irtkGreyImage) : Prop :=
  GetX image' = GetX image ∧ GetY image' = GetY image ∧
  GetZ image' = GetZ image ∧ GetT image' = GetT image.

(** In row [(j, k, t)] the voxels from [p] up to, not including, [l] are -1,
    and the run ends there: [l] is the end of the row or a voxel that is not
    -1. *)
Definition ends_run (image : irtkGreyImage) (j k t p l : Z) : Prop :=
  p < l ≤ GetX image ∧
  (∀ q, p ≤ q < l → Get image q j k t = -1) ∧
  (l < GetX image → Get image l j k t ≠ -1).

(** What the second loop nest has done to [image] once the voxels of
    [visited] are behind it: a visited voxel that was not -1 has its value,
    a visited voxel in a run of -1 has minus its distance to the end of the
    run, as a pixel holds it, and the voxels not visited yet are as in
    [image]. *)
Definition distances (image : irtkGreyImage) (visited : Z → Z → Z → Z → Prop)
    (image' : irtkGreyImage) : Prop :=
  wf_image image' ∧ same_dims image image' ∧
  ∀ x j k t, inside image x j k t →
    (¬ visited x j k t → Get image' x j k t = Get image x j k t) ∧
    (visited x j k t →
       (Get image x j k t ≠ -1 → Get image' x j k t = Get image x j k t) ∧
       (∀ l, ends_run image j k t x l →
             Get image' x j k t = irtkGreyPixel (- (l - x)))).

(** The voxels behind the loop variable [i] of row [(j, k, t)], added to
    [visited]. *)
Definition row_upto (visited : Z → Z → Z → Z → Prop) (j k t : Z)
    (i : Z) (x j' k' t' : Z) : Prop :=
  visited x j' k' t' ∨ ((j', k', t') = (j, k, t) ∧ x < i).

(** Successive calls [in.getline(buffer1, 255)], each on a stream whose
    [eof()] is still false: the lines they leave in the buffer and the
    stream after them. *)
Inductive reads : istream → list (list ascii) → istream → Prop :=
  | reads_nil in_ : reads in_ [] in_
  | reads_cons in_ line in_' lines in_'' :
      eof in_ = false →
      getline in_ 255 = (line, in_') →
      reads in_' lines in_'' →
      reads in_ (line :: lines) in_''.

(** The lines the first loop of [read_line] passes over, in the words of the
    design document: the empty line and the comment ... *)
Definition empty_or_comment (line : list ascii) : Prop :=
  strlen line = 0%nat ∨ char_at line 0 = "#"%char.

(** ... and the line that starts with a carriage return. *)
Definition passed_over (line : list ascii) : Prop :=
  empty_or_comment line ∨ char_at line 0 = CR.

Definition blank (c : ascii) : Prop := c = " "%char ∨ c = TAB.

(** [e] is the offset of the first '=' of the line. *)
Definition first_equals (line : list ascii) (e : nat) : Prop :=
  (e < strlen line)%nat ∧ char_at line e = "="%char ∧
  ∀ q, (q < e)%nat → char_at line q ≠ "="%char.

(** [p] is the offset of the first character after offset [e] that is not
    a blank. *)
Definition value_start (line : list ascii) (e p : nat) : Prop :=
  (e < p)%nat ∧ (∀ q, (e < q < p)%nat → blank (char_at line q)) ∧
  ¬ blank (char_at line p).

(** What is in the buffer after the lines [lines] have been read into it. *)
Definition buffer_after (buffer1 : list ascii) (lines : list (list ascii))
    : list ascii :=
  default buffer1 (last lines).

(** A key can stand before the [=] of a line: it is not empty, has no
    newline, no null character and no [=], does not start as a comment or
    with a carriage return, and does not end with a blank. *)
Definition key_text (key : string) : bool :=
  let cs := list_ascii_of_string key in
  forallb (λ c, negb (Ascii.eqb c LF) && negb (Ascii.eqb c NUL) &&
                negb (Ascii.eqb c "=")) cs &&
  negb (skipped cs) &&
  negb (Ascii.eqb (char_at (rev cs) 0) " " || Ascii.eqb (char_at (rev cs) 0) TAB) &&
  (length cs <=? 50)%nat.

(** The lines of a file that [read_line] passes over whole. *)
Definition passed_line (s : string) : Prop :=
  passed_over (list_ascii_of_string s) ∧ (LF ∉ list_ascii_of_string s) ∧
  (length (list_ascii_of_string s) ≤ 254)%nat.

(** A line of text that fits the buffer of [read_line]: no newline inside and
    at most 254 characters. *)
Definition fits (line : list ascii) : Prop :=
  (LF ∉ line) ∧ (length line ≤ 254)%nat.

#[global] Instance in_lattice_dec ffd i j k : Decision (in_lattice ffd i j k).
Proof. unfold in_lattice. apply _. Defined.

(** The status of a control point after the call, computed from the status
    before it. *)
Definition status_after (image : irtkGreyImage) (padding : Z) (ffd : FFD.t)
    (i j k : Z) : _Status :=
  let '((x1, y1, z1), (x2, y2, z2)) := control_box image ffd i j k in
  if decide (in_lattice ffd i j k) then
    if box_above image padding x1 y1 z1 x2 y2 z2 then FFD.GetStatus ffd i j k
    else _Passive
  else FFD.GetStatus ffd i j k.

(* ===================================================================== *)
(** * Properties *)

(** ** Counted loops *)

Section for_loop.
Context {S : Type}.
Implicit Types (body : Z → S → S) (s : S).

Lemma for_loop_nil lo hi body s : hi ≤ lo → for_loop lo hi body s = s.
Proof. intros. unfold for_loop. by rewrite seqZ_nil by lia. Qed.

Lemma for_loop_split lo mid hi body s :
  lo ≤ mid ≤ hi →
  for_loop lo hi body s = for_loop mid hi body (for_loop lo mid body s).
Proof.
  intros. unfold for_loop.
  replace (hi - lo) with ((mid - lo) + (hi - mid)) by lia.
  rewrite seqZ_app, foldl_app by lia.
  by replace (lo + (mid - lo)) with mid by lia.
Qed.

Lemma for_loop_one i body s : for_loop i (i + 1) body s = body i s.
Proof.
  unfold for_loop. replace (i + 1 - i) with 1 by lia.
  rewrite seqZ_cons, seqZ_nil by lia. done.
Qed.

Lemma for_loop_last lo hi body s :
  lo ≤ hi → for_loop lo (hi + 1) body s = body hi (for_loop lo hi body s).
Proof.
  intros. rewrite (for_loop_split lo hi (hi + 1)) by lia.
  by rewrite for_loop_one.
Qed.

(** Loop invariant indexed by the loop variable. *)
Lemma for_loop_ind (P : Z → S → Prop) lo hi body s :
  lo ≤ hi →
  P lo s →
  (∀ i s', lo ≤ i < hi → P i s' → P (i + 1) (body i s')) →
  P hi (for_loop lo hi body s).
Proof.
  intros Hle H0 Hstep.
  assert (∀ n : nat, lo + Z.of_nat n ≤ hi →
            P (lo + Z.of_nat n) (for_loop lo (lo + Z.of_nat n) body s)) as Hn.
  { induction n as [|n IH]; intros Hn.
    - rewrite Z.add_0_r, for_loop_nil by lia. done.
    - replace (lo + Z.of_nat (Datatypes.S n)) with (lo + Z.of_nat n + 1) by lia.
      rewrite for_loop_last by lia. apply Hstep; [lia|]. apply IH. lia. }
  specialize (Hn (Z.to_nat (hi - lo))).
  replace (lo + Z.of_nat (Z.to_nat (hi - lo))) with hi in Hn by lia.
  apply Hn. lia.
Qed.

End for_loop.

Section for_loopM.
Context {S : Type}.
Implicit Types (body : Z → S → option S) (s : S).

Lemma foldl_bind_None (body : Z → S → option S) (l : list Z) :
  foldl (λ acc i, acc ≫= body i) None l = None.
Proof. induction l as [|x l IH]; simpl; auto. Qed.

Lemma for_loopM_nil lo hi body s : hi ≤ lo → for_loopM lo hi body s = Some s.
Proof. intros. unfold for_loopM. by rewrite seqZ_nil by lia. Qed.

Lemma for_loopM_split lo mid hi body s :
  lo ≤ mid ≤ hi →
  for_loopM lo hi body s = for_loopM lo mid body s ≫= for_loopM mid hi body.
Proof.
  intros. unfold for_loopM.
  replace (hi - lo) with ((mid - lo) + (hi - mid)) by lia.
  rewrite seqZ_app, foldl_app by lia.
  replace (lo + (mid - lo)) with mid by lia.
  destruct (foldl _ (Some s) (seqZ lo (mid - lo))); simpl; [done|].
  apply foldl_bind_None.
Qed.

Lemma for_loopM_one i body s : for_loopM i (i + 1) body s = body i s.
Proof.
  unfold for_loopM. replace (i + 1 - i) with 1 by lia.
  rewrite seqZ_cons, seqZ_nil by lia. done.
Qed.

End for_loopM.

(** Loop invariant for a loop of fuelled rounds: every round answers and
    moves the invariant on, so the loop answers. *)
Lemma for_loopM_ind {S : Type} (P : Z → S → Prop) lo hi
    (body : Z → S → option S) (s : S) :
  lo ≤ hi →
  P lo s →
  (∀ i s', lo ≤ i < hi → P i s' → ∃ s'', body i s' = Some s'' ∧ P (i + 1) s'') →
  ∃ s', for_loopM lo hi body s = Some s' ∧ P hi s'.
Proof.
  intros Hle H0 Hstep.
  assert (∀ n : nat, lo + Z.of_nat n ≤ hi →
            ∃ s', for_loopM lo (lo + Z.of_nat n) body s = Some s' ∧
                  P (lo + Z.of_nat n) s') as Hn.
  { induction n as [|n IH]; intros Hn.
    - rewrite Z.add_0_r, for_loopM_nil by lia. eauto.
    - destruct IH as (s1 & E1 & P1); [lia|].
      replace (lo + Z.of_nat (Datatypes.S n)) with (lo + Z.of_nat n + 1) by lia.
      rewrite (for_loopM_split lo (lo + Z.of_nat n)) by lia.
      rewrite E1. simpl. rewrite for_loopM_one. apply Hstep; [lia|done]. }
  specialize (Hn (Z.to_nat (hi - lo))).
  replace (lo + Z.of_nat (Z.to_nat (hi - lo))) with hi in Hn by lia.
  apply Hn. lia.
Qed.

(** A loop whose rounds can raise a flag [F] on a state that keeps [I]: the
    flag is up afterwards exactly when it was up before or some round raised
    it. *)
Lemma for_loop_raises {S : Type} (I F : S → Prop) (Q : Z → Prop)
    (body : Z → S → S) lo hi s :
  I s →
  (∀ i s', lo ≤ i < hi → I s' → I (body i s') ∧ (F (body i s') ↔ F s' ∨ Q i)) →
  I (for_loop lo hi body s) ∧
  (F (for_loop lo hi body s) ↔ F s ∨ ∃ i, lo ≤ i < hi ∧ Q i).
Proof.
  intros HI Hbody. destruct (Z_le_gt_dec lo hi) as [Hle|Hgt].
  2:{ rewrite for_loop_nil by lia. split; [done|]. split; [auto|].
      intros [?|(i & ? & _)]; [done|lia]. }
  apply (for_loop_ind
    (λ h s', lo ≤ h ≤ hi → I s' ∧ (F s' ↔ F s ∨ ∃ i, lo ≤ i < h ∧ Q i)));
    [lia| | |lia].
  - intros _. split; [done|]. split; [auto|]. intros [?|(i & ? & _)]; [done|lia].
  - intros i s' Hi IH Hi'. destruct IH as [HI' IH]; [lia|].
    destruct (Hbody i s' Hi HI') as [HI'' HF]. split; [done|].
    rewrite HF, IH. split.
    + intros [[?|(i' & ? & ?)]|?]; [by left|right; exists i'|right; exists i];
        (split; [lia|done]).
    + intros [?|(i' & ? & ?)]; [by left; left|].
      destruct (decide (i' = i)) as [->|]; [by right|].
      left; right. exists i'. split; [lia|done].
Qed.

(** A loop that raises a flag: the flag is up afterwards exactly when it was
    up before or some round raised it. *)
Lemma for_loop_flag (Q : Z → Prop) (body : Z → bool → bool) lo hi b :
  (∀ i b', lo ≤ i < hi → body i b' = true ↔ b' = true ∨ Q i) →
  for_loop lo hi body b = true ↔ b = true ∨ ∃ i, lo ≤ i < hi ∧ Q i.
Proof.
  intros Hbody. destruct (Z_le_gt_dec lo hi) as [Hle|Hgt].
  2:{ rewrite for_loop_nil by lia. split; [auto|]. intros [?|(i & ? & _)]; [done|lia]. }
  cut (∀ h, lo ≤ h ≤ hi →
         for_loop lo h body b = true ↔ b = true ∨ ∃ i, lo ≤ i < h ∧ Q i).
  { intros H. apply H. lia. }
  intros h Hh.
  apply (for_loop_ind
    (λ h' b', lo ≤ h' ≤ hi → (b' = true ↔ b = true ∨ ∃ i, lo ≤ i < h' ∧ Q i))
    lo h body b); [lia| | |lia].
  - intros _. split; [auto|]. intros [?|(i & ? & _)]; [done|lia].
  - intros i b' Hi IH Hi'. rewrite Hbody by lia. rewrite IH by lia. split.
    + intros [[?|(i' & ? & ?)]|?]; [by left|right; exists i'|right; exists i];
        (split; [lia|done]).
    + intros [?|(i' & ? & ?)]; [by left; left|].
      destruct (decide (i' = i)) as [->|]; [by right|].
      left; right. exists i'. split; [lia|done].
Qed.

(** ** GuessPadding *)

Lemma corners_equal_origin image :
  corners_equal image ↔
  Forall (λ c, corner_value image (0, 0, 0) = corner_value image c)
         (corners image).
Proof.
  unfold corners_equal. rewrite Forall_forall. split.
  - intros H c Hc. apply H; [|done]. unfold corners. apply list_elem_of_In. by left.
  - intros H c c' Hc Hc'. rewrite <- (H c Hc). apply H, Hc'.
Qed.

(** C1.  [GuessPadding] answers the intensity of the corner voxel (0,0,0)
    when the eight corner voxels of the volume are equal, and [MIN_GREY]
    when they are not. *)
Theorem GuessPadding_corners (MIN_GREY : Z) (image : irtkGreyImage) :
  (corners_equal image → GuessPadding MIN_GREY image = Get image 0 0 0 0) ∧
  (¬ corners_equal image → GuessPadding MIN_GREY image = MIN_GREY).
Proof.
  rewrite corners_equal_origin. unfold corners, GuessPadding.
  rewrite !Forall_cons, Forall_nil. unfold corner_value.
  repeat match goal with
         | |- context [?a =? ?b] => destruct (Z.eqb_spec a b)
         end; simpl; split; intros H; try done; tauto.
Qed.

Example GuessPadding_air :
  GuessPadding (-32768) (mkImage 2 2 2 1 [0; 0; 0; 0; 0; 0; 0; 0]) = 0.
Proof. reflexivity. Qed.

Example GuessPadding_no_air :
  GuessPadding (-32768) (mkImage 2 2 2 1 [0; 0; 0; 0; 0; 0; 0; 9]) = -32768.
Proof. reflexivity. Qed.

(** ** GuessResolution *)

Lemma SFleb_refl x : is_nan x = false → SFleb x x = true.
Proof.
  unfold SFleb. destruct x as [s|s| |s m e]; simpl; try done.
  - by destruct s.
  - intros _. rewrite Z.compare_refl.
    change (Pos.compare_cont Eq m m) with (Pos.compare m m).
    rewrite Pos.compare_refl. by destruct s.
Qed.

Lemma SFleb_finite s1 m1 e1 s2 m2 e2 :
  SFleb (S754_finite s1 m1 e1) (S754_finite s2 m2 e2) = true ↔
  match s1, s2 with
  | true, false => True
  | false, true => False
  | false, false => e1 < e2 ∨ (e1 = e2 ∧ (m1 ≤ m2)%positive)
  | true, true => e2 < e1 ∨ (e1 = e2 ∧ (m2 ≤ m1)%positive)
  end.
Proof.
  unfold SFleb. simpl.
  change (Pos.compare_cont Eq m1 m2) with (Pos.compare m1 m2).
  destruct s1, s2; try done;
    destruct (Z.compare_spec e1 e2); try (split; [intros _|]; (done || lia));
    destruct (Pos.compare_spec m1 m2); simpl; split; try done; try lia;
    intros _; right; split; lia.
Qed.

(** Without a NaN the IEEE order is total ... *)
Lemma SFleb_total x y :
  is_nan x = false → is_nan y = false → SFleb x y = false → SFleb y x = true.
Proof.
  destruct x as [s1|s1| |s1 m1 e1], y as [s2|s2| |s2 m2 e2]; try done;
    try (by destruct s1, s2); try (by destruct s1); try (by destruct s2).
  intros _ _ H. apply SFleb_finite.
  assert (¬ SFleb (S754_finite s1 m1 e1) (S754_finite s2 m2 e2) = true) as H'
    by (rewrite H; done).
  rewrite SFleb_finite in H'. destruct s1, s2; try done; lia.
Qed.

(** ... and transitive. *)
Lemma SFleb_trans x y z :
  SFleb x y = true → SFleb y z = true → SFleb x z = true.
Proof.
  destruct x as [s1|s1| |s1 m1 e1], y as [s2|s2| |s2 m2 e2],
           z as [s3|s3| |s3 m3 e3]; try done;
    try (by destruct s1, s2, s3); try (by destruct s1, s2);
    try (by destruct s1, s3); try (by destruct s2, s3).
  rewrite !SFleb_finite. destruct s1, s2, s3; try done; lia.
Qed.

Lemma SFltb_SFleb x y : SFltb x y = true → SFleb x y = true.
Proof. unfold SFltb, SFleb. by destruct (SFcompare x y) as [[]|]. Qed.

Lemma SFcompare_antisym x y :
  SFcompare y x = CompOpp <$> SFcompare x y.
Proof.
  destruct x as [s1|s1| |s1 m1 e1], y as [s2|s2| |s2 m2 e2];
    try done; simpl; try (by destruct s1, s2); try (by destruct s1);
    try (by destruct s2).
  change (Pos.compare_cont Eq m2 m1) with (Pos.compare m2 m1).
  change (Pos.compare_cont Eq m1 m2) with (Pos.compare m1 m2).
  rewrite (Z.compare_antisym e1 e2), (Pos.compare_antisym m1 m2).
  destruct s1, s2; try done;
    destruct (e1 ?= e2); try done; simpl;
    destruct (m1 ?= m2)%positive; done.
Qed.

(** Not below means not-less the other way round. *)
Lemma SFltb_false_SFleb x y :
  is_nan x = false → is_nan y = false → SFltb y x = false → SFleb x y = true.
Proof.
  intros Hx Hy. unfold SFltb, SFleb. rewrite (SFcompare_antisym x y).
  destruct (SFcompare x y) as [[]|] eqn:E; simpl; try done.
  destruct x, y; done.
Qed.

Lemma is_max_of_intro r l :
  r ∈ l → (∀ x, x ∈ l → SFleb x r = true) → is_max_of r l.
Proof. intros ? H. split; [done|]. by apply Forall_forall. Qed.

(** C2.  On sizes that are numbers (no NaN), [GuessResolution] with three
    arguments answers the largest of them, and the overload with two
    arguments the larger of the two. *)
Theorem GuessResolution_max (xsize ysize zsize : double) :
  is_nan xsize = false → is_nan ysize = false → is_nan zsize = false →
  is_max_of (GuessResolution xsize ysize zsize) [xsize; ysize; zsize] ∧
  is_max_of (GuessResolution2 xsize ysize) [xsize; ysize].
Proof.
  intros Hx Hy Hz.
  pose proof (SFleb_refl _ Hx) as Rx. pose proof (SFleb_refl _ Hy) as Ry.
  pose proof (SFleb_refl _ Hz) as Rz.
  unfold GuessResolution, GuessResolution2, double_ge, double_gt.
  split.
  - destruct (SFleb ysize xsize) eqn:Eyx, (SFleb zsize xsize) eqn:Ezx;
      simpl;
      [| destruct (SFleb xsize ysize) eqn:Exy, (SFleb zsize ysize) eqn:Ezy;
         simpl ..];
      (apply is_max_of_intro; [apply list_elem_of_In; simpl; tauto|]);
      intros w Hw; apply list_elem_of_In in Hw; simpl in Hw;
      destruct Hw as [<-|[<-|[<-|[]]]]; try done;
      eauto using SFleb_total, SFleb_trans;
      (exfalso; apply SFleb_total in Eyx; [congruence|done|done]).
  - destruct (SFltb ysize xsize) eqn:E;
      (apply is_max_of_intro; [apply list_elem_of_In; simpl; tauto|]);
      intros w Hw; apply list_elem_of_In in Hw; simpl in Hw;
      destruct Hw as [<-|[<-|[]]]; try done;
      eauto using SFltb_SFleb, SFltb_false_SFleb.
Qed.

Lemma GuessResolution_max_witness :
  let one := S754_finite false 4503599627370496 (-52) in
  let two := S754_finite false 4503599627370496 (-51) in
  let half := S754_finite false 4503599627370496 (-53) in
  is_max_of (GuessResolution one two half) [one; two; half] ∧
  is_max_of (GuessResolution2 one two) [one; two].
Proof. apply GuessResolution_max; reflexivity. Defined.

(** With a NaN among the sizes every comparison is false and the last
    argument is the answer. *)
Example GuessResolution_nan :
  GuessResolution S754_nan (S754_finite false 4503599627370496 (-51))
    (S754_finite false 4503599627370496 (-52))
  = S754_finite false 4503599627370496 (-52).
Proof. reflexivity. Qed.

(** ** irtkCalculateNumberOfBins *)

Lemma ceil_div_ceiling a b : 0 < b → ceiling_of a b (ceil_div a b).
Proof.
  intros Hb. unfold ceiling_of, ceil_div.
  pose proof (Z.div_mod (- a) b ltac:(lia)) as E.
  pose proof (Z.mod_pos_bound (- a) b Hb). nia.
Qed.

Lemma ceiling_of_unique a b c c' :
  0 < b → ceiling_of a b c → ceiling_of a b c' → c = c'.
Proof. unfold ceiling_of. intros. nia. Qed.

(** For a positive value the truncation is the floor. *)
Lemma trunc_div_floor v width : 0 < v → 0 < width → trunc_div v width = v / width.
Proof. intros. unfold trunc_div. apply Z.quot_div_nonneg; lia. Qed.

(** The [while] loop stops at the first width, from [width] on, whose bin
    count fits; [range - width + 1] rounds are enough. *)
Lemma widen_spec fuel range maxbin width :
  0 < maxbin → 0 < width →
  (Z.to_nat (range - width) < fuel)%nat →
  ∃ width',
    widen fuel range maxbin width = Some width' ∧
    width ≤ width' ∧
    ceil_div range width' ≤ maxbin ∧
    ∀ w, width ≤ w < width' → maxbin < ceil_div range w.
Proof.
  intros Hmax. revert width.
  induction fuel as [|fuel IH]; intros width Hw Hfuel; [lia|].
  simpl. destruct (Z.ltb_spec maxbin (ceil_div range width)) as [Hgt|Hle].
  - assert (width < range) as Hlt.
    { pose proof (ceil_div_ceiling range width Hw) as Hc.
      unfold ceiling_of in Hc. nia. }
    destruct (IH (width + 1)) as (w' & E & Hge & Hfit & Hmin); [lia|lia|].
    exists w'. split; [done|]. split; [lia|]. split; [done|].
    intros w Hw'. destruct (decide (w = width)) as [->|]; [done|].
    apply Hmin. lia.
  - exists width. split; [done|]. split; [lia|]. split; [done|]. lia.
Qed.

Lemma rescale_dims width image :
  GetX (rescale width image) = GetX image ∧
  GetY (rescale width image) = GetY image ∧
  GetZ (rescale width image) = GetZ image ∧
  GetT (rescale width image) = GetT image.
Proof. done. Qed.

(** A loop that rewrites entry [i] of a buffer in its round [i] maps the
    buffer. *)
Lemma for_loop_update_each {A : Type} (f : A → A) (body : Z → list A → list A)
    (l : list A) :
  (∀ (i : nat) buf v, buf !! i = Some v → body (Z.of_nat i) buf = <[i := f v]> buf) →
  for_loop 0 (Z.of_nat (length l)) body l = f <$> l.
Proof.
  intros Hbody.
  pose proof (for_loop_ind
    (λ i buf, buf = (f <$> take (Z.to_nat i) l) ++ drop (Z.to_nat i) l)
    0 (Z.of_nat (length l)) body l ltac:(lia)) as Hind.
  rewrite Hind.
  - rewrite Nat2Z.id, firstn_all, drop_all. apply app_nil_r.
  - done.
  - intros i buf Hi ->.
    assert (Z.to_nat i < length l)%nat as Hin by lia.
    destruct (lookup_lt_is_Some_2 _ _ Hin) as [v Hv].
    replace (Z.to_nat (i + 1)) with (S (Z.to_nat i)) by lia.
    rewrite (take_S_r _ _ _ Hv), fmap_app. simpl.
    rewrite (drop_S _ _ _ Hv).
    assert (length (f <$> take (Z.to_nat i) l) = Z.to_nat i) as Hl.
    { rewrite length_fmap, length_take. lia. }
    replace i with (Z.of_nat (Z.to_nat i)) at 1 by lia.
    rewrite (Hbody _ _ v).
    + rewrite insert_app_r_alt by (rewrite Hl; lia).
      rewrite Hl, Nat.sub_diag. simpl. by rewrite <- app_assoc.
    + rewrite lookup_app_r by (rewrite Hl; lia).
      by rewrite Hl, Nat.sub_diag.
Qed.

(** The loop of [rescale] visits every entry of the buffer once. *)
Lemma rescale_voxels width image :
  wf_image image →
  voxels (rescale width image) =
  (λ v, if 0 <? v then trunc_div v width else v) <$> voxels image.
Proof.
  intros (HX & HY & HZ & HT & Hlen). unfold rescale. simpl.
  rewrite <- Hlen. apply for_loop_update_each.
  intros i buf v Hv. rewrite Nat2Z.id, Hv.
  destruct (0 <? v); [done|]. by rewrite list_insert_id.
Qed.

(** C3.  With [maxbin = 0] the function answers [max - min + 1] and every
    voxel keeps its value.  With [maxbin > 0] it answers the ceiling of
    [(max - min + 1) / width], which is at most [maxbin], for the least
    positive [width] with that property, and a voxel [v > 0] becomes the
    floor of [v / width] while the others keep their value.
    [max - min + 1] rounds of the [while] loop are enough. *)
Theorem irtkCalculateNumberOfBins_spec (fuel : nat) (image : irtkGreyImage)
    (maxbin min max : Z) :
  wf_image image → min ≤ max → (Z.to_nat (max - min + 1) ≤ fuel)%nat →
  ∃ nbins image',
    irtkCalculateNumberOfBins fuel image maxbin min max = Some (nbins, image') ∧
    (maxbin = 0 →
       nbins = max - min + 1 ∧
       ∀ (i : nat) v, voxels image !! i = Some v → voxels image' !! i = Some v) ∧
    (0 < maxbin →
       ∃ width,
         0 < width ∧ ceiling_of (max - min + 1) width nbins ∧ nbins ≤ maxbin ∧
         (∀ w c, 0 < w < width → ceiling_of (max - min + 1) w c → maxbin < c) ∧
         ∀ (i : nat) v, voxels image !! i = Some v →
           voxels image' !! i = Some (if 0 <? v then v / width else v)).
Proof.
  intros Hwf Hle Hfuel. unfold irtkCalculateNumberOfBins, choose_bins.
  destruct (Z.ltb_spec 0 maxbin) as [Hpos|Hnpos].
  - destruct (widen_spec fuel (max - min + 1) maxbin 1)
      as (width & E & Hge & Hfit & Hmin); [done|lia|lia|].
    rewrite E. simpl. eexists _, _. split; [done|]. split; [intros; lia|].
    intros _. exists width. split; [lia|].
    split; [apply ceil_div_ceiling; lia|]. split; [done|]. split.
    + intros w c Hw Hc.
      assert (0 < w) as Hw0 by lia.
      rewrite (ceiling_of_unique _ _ _ _ Hw0 Hc
                 (ceil_div_ceiling (max - min + 1) w Hw0)).
      apply Hmin. lia.
    + intros i v Hv. rewrite rescale_voxels by done.
      rewrite list_lookup_fmap, Hv. simpl.
      destruct (Z.ltb_spec 0 v); [|done].
      by rewrite trunc_div_floor by lia.
  - simpl. eexists _, _. split; [done|]. split; [|intros; lia].
    intros _. split; [done|]. intros i v Hv.
    rewrite rescale_voxels by done. rewrite list_lookup_fmap, Hv. simpl.
    unfold trunc_div. rewrite Z.quot_1_r. by destruct (0 <? v).
Qed.

Lemma irtkCalculateNumberOfBins_spec_witness :
  let image := mkImage 2 1 1 1 [7; -3] in
  ∃ nbins image',
    irtkCalculateNumberOfBins 10 image 4 0 9 = Some (nbins, image') ∧
    (4 = 0 →
       nbins = 9 - 0 + 1 ∧
       ∀ (i : nat) v, voxels image !! i = Some v → voxels image' !! i = Some v) ∧
    (0 < 4 →
       ∃ width,
         0 < width ∧ ceiling_of (9 - 0 + 1) width nbins ∧ nbins ≤ 4 ∧
         (∀ w c, 0 < w < width → ceiling_of (9 - 0 + 1) w c → 4 < c) ∧
         ∀ (i : nat) v, voxels image !! i = Some v →
           voxels image' !! i = Some (if 0 <? v then v / width else v)).
Proof.
  apply (irtkCalculateNumberOfBins_spec 10 (mkImage 2 1 1 1 [7; -3]) 4 0 9).
  - unfold wf_image, GetNumberOfVoxels. simpl. lia.
  - lia.
  - simpl. lia.
Defined.

Example irtkCalculateNumberOfBins_run :
  irtkCalculateNumberOfBins 10 (mkImage 2 1 1 1 [7; -3]) 4 0 9
  = Some (4, mkImage 2 1 1 1 [2; -3]).
Proof. reflexivity. Qed.

(** The overload for an array rescales each of its [n] images as the
    overload for one image does, and answers the same number of bins. *)
Lemma irtkCalculateNumberOfBins_n_each (fuel : nat)
    (images : list irtkGreyImage) (maxbin min max nbins width : Z) :
  choose_bins fuel maxbin min max = Some (nbins, width) →
  irtkCalculateNumberOfBins_n fuel images maxbin min max
    (Z.of_nat (length images))
  = Some (nbins, rescale width <$> images) ∧
  ∀ image, irtkCalculateNumberOfBins fuel image maxbin min max
           = Some (nbins, rescale width image).
Proof.
  intros E. unfold irtkCalculateNumberOfBins_n, irtkCalculateNumberOfBins.
  rewrite E. simpl. split; [|done]. do 2 f_equal.
  apply for_loop_update_each. intros i buf v Hv. by rewrite Nat2Z.id, Hv.
Qed.

(** ** irtkPadding(image, padding, ffd) *)

Lemma box_above_false image padding x1 y1 z1 x2 y2 z2 :
  box_above image padding x1 y1 z1 x2 y2 z2 = false ↔
  box_below image padding ((x1, y1, z1), (x2, y2, z2)).
Proof.
  rewrite <- not_true_iff_false. unfold box_above, box_below.
  rewrite (for_loop_flag (λ t, ∃ z, z1 ≤ z < z2 + 1 ∧ ∃ y, y1 ≤ y < y2 + 1 ∧
             ∃ x, x1 ≤ x < x2 + 1 ∧ padding < Get image x y z t)).
  - split.
    + intros H x y z t Ht Hz Hy Hx.
      destruct (Z_le_gt_dec (Get image x y z t) padding); [done|].
      exfalso. apply H. right. exists t. split; [done|]. exists z.
      split; [lia|]. exists y. split; [lia|]. exists x. split; lia.
    + intros H [?|(t & Ht & z & Hz & y & Hy & x & Hx & Hgt)]; [done|].
      specialize (H x y z t). lia.
  - intros t b _. apply for_loop_flag. intros z b' _.
    apply for_loop_flag. intros y b'' _. apply for_loop_flag.
    intros x b''' _. destruct (Z.ltb_spec padding (Get image x y z t)).
    + split; auto.
    + split; [auto|]. intros [?|?]; [done|lia].
Qed.

Lemma GetStatus_PutStatus ffd i j k s a b c :
  FFD.GetStatus (FFD.PutStatus ffd i j k s) a b c =
  if decide (a = i ∧ b = j ∧ c = k) then s else FFD.GetStatus ffd a b c.
Proof.
  simpl. destruct (Z.eqb_spec a i), (Z.eqb_spec b j), (Z.eqb_spec c k);
    simpl; case_decide; try done; tauto.
Qed.

Section irtkPadding_ffd.
Variables (image : irtkGreyImage) (padding : Z) (ffd : FFD.t).
Local Abbreviation padded := (padded image padding ffd).

Lemma padded_iff (V V' : Z → Z → Z → Prop) ffd' :
  (∀ a b c, V a b c ↔ V' a b c) → padded V ffd' → padded V' ffd'.
Proof.
  intros HV (? & ? & ? & ? & ? & H). repeat (split; [done|]).
  intros a b c. specialize (H a b c). cbv zeta in H |- *. rewrite <- HV. done.
Qed.

(** One round of the innermost of the three loops over the lattice. *)
Lemma padded_round (V : Z → Z → Z → Prop) ffd' i j k :
  padded V ffd' →
  padded (λ a b c, V a b c ∨ (a = i ∧ b = j ∧ c = k))
    (pad_control_point image padding i j k ffd').
Proof.
  intros (HX & HY & HZ & HL & HB & H). unfold pad_control_point.
  rewrite HL, HB.
  pose proof (box_above_false image padding) as Hbox.
  fold (control_box image ffd i j k).
  destruct (control_box image ffd i j k) as [[[x1 y1] z1] [[x2 y2] z2]] eqn:Ebox.
  specialize (Hbox x1 y1 z1 x2 y2 z2).
  destruct (box_above image padding x1 y1 z1 x2 y2 z2); simpl.
  - repeat (split; [done|]). intros a b c. specialize (H a b c). cbv zeta in H |- *.
    destruct H as [H1 H2]. split.
    + intros [[?|(-> & -> & ->)] Hbelow]; [by apply H1|].
      rewrite Ebox in Hbelow. apply Hbox in Hbelow. done.
    + intros Hn. apply H2. tauto.
  - repeat (split; [done|]). intros a b c. specialize (H a b c). cbv zeta in H |- *.
    destruct H as [H1 H2].
    rewrite GetStatus_PutStatus.
    destruct (decide (a = i ∧ b = j ∧ c = k)) as [(-> & -> & ->)|Hne].
    + split; [done|]. intros Hn. exfalso. apply Hn. split; [by right|].
      rewrite Ebox. by apply Hbox.
    + split; [intros [[?|?] ?]; [apply H1; tauto|tauto]|].
      intros Hn. apply H2. tauto.
Qed.

Lemma padded_all :
  padded (λ a b c, in_lattice ffd a b c) (irtkPadding_ffd image padding ffd).
Proof.
  unfold irtkPadding_ffd.
  set (round := pad_control_point image padding).
  assert (∀ V i j ffd' hi, padded V ffd' →
            padded (λ a b c, V a b c ∨ (a = i ∧ b = j ∧ 0 ≤ c < hi))
                   (for_loop 0 hi (round i j) ffd')) as Hk.
  { intros V i j ffd' hi HV. destruct (Z_le_gt_dec 0 hi).
    - apply (for_loop_ind (λ h f,
        padded (λ a b c, V a b c ∨ (a = i ∧ b = j ∧ 0 ≤ c < h)) f));
        [done| |].
      + eapply padded_iff; [|exact HV]. intros; simpl; intuition lia.
      + intros k f Hk Hf. eapply padded_iff; [|apply (padded_round _ f i j k Hf)].
        intros; simpl; intuition lia.
    - rewrite for_loop_nil by lia. eapply padded_iff; [|exact HV].
      intros; simpl; intuition lia. }
  assert (∀ V i ffd' hi, padded V ffd' →
            padded (λ a b c, V a b c ∨ (a = i ∧ 0 ≤ b < hi ∧ 0 ≤ c < FFD.GetZ ffd))
                   (for_loop 0 hi (λ j, for_loop 0 (FFD.GetZ ffd) (round i j)) ffd')) as Hj.
  { intros V i ffd' hi HV. destruct (Z_le_gt_dec 0 hi).
    - apply (for_loop_ind (λ h f,
        padded (λ a b c, V a b c ∨
                  (a = i ∧ 0 ≤ b < h ∧ 0 ≤ c < FFD.GetZ ffd)) f));
        [done| |].
      + eapply padded_iff; [|exact HV]. intros; simpl; intuition lia.
      + intros j f Hj' Hf. eapply padded_iff; [|apply (Hk _ i j f _ Hf)].
        intros; simpl; intuition lia.
    - rewrite for_loop_nil by lia. eapply padded_iff; [|exact HV].
      intros; simpl; intuition lia. }
  assert (padded (λ _ _ _, False) ffd) as H0.
  { repeat (split; [done|]). intros a b c. simpl. split; [tauto|done]. }
  destruct (Z_le_gt_dec 0 (FFD.GetX ffd)).
  - apply (for_loop_ind (λ h f,
      padded (λ a b c, 0 ≤ a < h ∧ 0 ≤ b < FFD.GetY ffd ∧
                       0 ≤ c < FFD.GetZ ffd) f));
      [done| |].
    + eapply padded_iff; [|exact H0]. intros; simpl; intuition lia.
    + intros i f Hi Hf. eapply padded_iff; [|apply (Hj _ i f _ Hf)].
      intros; simpl; intuition lia.
  - rewrite for_loop_nil by lia. eapply padded_iff; [|exact H0].
    intros; unfold in_lattice; simpl; intuition lia.
Qed.
End irtkPadding_ffd.

(** C9.  After [irtkPadding(image, padding, ffd)] a control point of the
    lattice whose bounding box holds, over all frames, no voxel above
    [padding] is passive; every other control point has the status it had.
    So no control point is made active, and a passive one stays passive
    whatever its box holds. *)
Theorem irtkPadding_ffd_status (image : irtkGreyImage) (padding : Z)
    (ffd : FFD.t) (i j k : Z) :
  let ffd' := irtkPadding_ffd image padding ffd in
  let below := in_lattice ffd i j k ∧
               box_below image padding (control_box image ffd i j k) in
  (below → FFD.GetStatus ffd' i j k = _Passive) ∧
  (¬ below → FFD.GetStatus ffd' i j k = FFD.GetStatus ffd i j k) ∧
  (FFD.GetStatus ffd i j k = _Passive → FFD.GetStatus ffd' i j k = _Passive).
Proof.
  destruct (padded_all image padding ffd) as (_ & _ & _ & _ & _ & H).
  specialize (H i j k). cbv zeta in H |- *. destruct H as [H1 H2].
  split; [done|]. split; [done|]. intros Hp.
  destruct (control_box image ffd i j k) as [[[x1 y1] z1] [[x2 y2] z2]] eqn:Ebox.
  destruct (box_above image padding x1 y1 z1 x2 y2 z2) eqn:E.
  - rewrite H2; [done|]. intros [_ Hb]. apply box_above_false in Hb. congruence.
  - apply box_above_false in E.
    assert (Decision (in_lattice ffd i j k)) as [Hin|Hout]
      by (unfold in_lattice; apply _).
    + by apply H1.
    + rewrite H2; [done|]. tauto.
Qed.

(** A lattice of two control points over an image of four voxels: the box
    of the first holds only padding, the box of the second does not. *)
Example irtkPadding_ffd_run :
  let image := mkImage 4 1 1 1 [-1; -1; 7; -1] in
  let ffd := FFD.mk 2 1 1 (λ i _ _, i)
               (λ _ index, ((2 * index, 0, 0), (2 * index + 1, 0, 0)))
               (λ _ _ _, _Active) in
  let ffd' := irtkPadding_ffd image (-1) ffd in
  FFD.GetStatus ffd' 0 0 0 = _Passive ∧ FFD.GetStatus ffd' 1 0 0 = _Active.
Proof. split; reflexivity. Qed.

(** ** Reading and writing voxels *)

Lemma insideb_inside image i j k t :
  insideb image i j k t = true ↔ inside image i j k t.
Proof.
  unfold insideb, inside. rewrite !andb_true_iff, !Z.leb_le, !Z.ltb_lt. lia.
Qed.

Lemma insideb_outside image i j k t :
  insideb image i j k t = false ↔ ¬ inside image i j k t.
Proof. rewrite <- insideb_inside. by destruct (insideb image i j k t). Qed.

(** Inside the image the index of a voxel is inside the buffer ... *)
Lemma VoxelToIndex_bound image i j k t :
  inside image i j k t →
  0 ≤ VoxelToIndex image i j k t < GetNumberOfVoxels image.
Proof.
  unfold inside, VoxelToIndex, GetNumberOfVoxels.
  intros (Hi & Hj & Hk & Ht).
  assert (0 ≤ t * GetZ image + k < GetT image * GetZ image) as H1 by nia.
  assert (0 ≤ (t * GetZ image + k) * GetY image + j
          < GetT image * GetZ image * GetY image) as H2 by nia.
  nia.
Qed.

Lemma pack_inj a i a' i' n :
  0 ≤ i < n → 0 ≤ i' < n → a * n + i = a' * n + i' → a = a' ∧ i = i'.
Proof. intros. assert (a = a') by nia. subst. lia. Qed.

(** ... and two voxels have the same index only when they are the same. *)
Lemma VoxelToIndex_inj image i j k t i' j' k' t' :
  inside image i j k t → inside image i' j' k' t' →
  VoxelToIndex image i j k t = VoxelToIndex image i' j' k' t' →
  i = i' ∧ j = j' ∧ k = k' ∧ t = t'.
Proof.
  unfold inside, VoxelToIndex. intros (Hi & Hj & Hk & Ht) (Hi' & Hj' & Hk' & Ht') E.
  apply pack_inj in E as [E ->]; [|done..].
  apply pack_inj in E as [E ->]; [|done..].
  apply pack_inj in E as [-> ->]; done.
Qed.

Lemma Put_dims image i j k t v :
  GetX (Put image i j k t v) = GetX image ∧
  GetY (Put image i j k t v) = GetY image ∧
  GetZ (Put image i j k t v) = GetZ image ∧
  GetT (Put image i j k t v) = GetT image.
Proof. unfold Put. by destruct (insideb image i j k t). Qed.

Lemma Put_wf image i j k t v : wf_image image → wf_image (Put image i j k t v).
Proof.
  unfold Put. destruct (insideb image i j k t); [|done].
  unfold wf_image, GetNumberOfVoxels. simpl. by rewrite length_insert.
Qed.

Lemma Put_inside image i j k t v i' j' k' t' :
  inside (Put image i j k t v) i' j' k' t' ↔ inside image i' j' k' t'.
Proof.
  unfold inside. destruct (Put_dims image i j k t v) as (-> & -> & -> & ->). done.
Qed.

Lemma Get_Put_same image i j k t v :
  wf_image image → inside image i j k t → Get (Put image i j k t v) i j k t = v.
Proof.
  intros Hwf Hin. pose proof (VoxelToIndex_bound _ _ _ _ _ Hin) as Hb.
  destruct Hwf as (_ & _ & _ & _ & Hlen).
  unfold Get, Put. apply insideb_inside in Hin as Hinb. rewrite Hinb.
  unfold insideb in *. simpl. rewrite Hinb. unfold VoxelToIndex. simpl.
  rewrite list_lookup_insert_eq; [done|]. unfold VoxelToIndex in Hb. lia.
Qed.

Lemma Get_Put_other image i j k t v i' j' k' t' :
  (i', j', k', t') ≠ (i, j, k, t) →
  Get (Put image i j k t v) i' j' k' t' = Get image i' j' k' t'.
Proof.
  intros Hne. unfold Put.
  destruct (insideb image i j k t) eqn:Hin; [|done].
  unfold Get, insideb, VoxelToIndex. simpl.
  fold (insideb image i' j' k' t').
  destruct (insideb image i' j' k' t') eqn:Hin'; [|done].
  fold (VoxelToIndex image i j k t) (VoxelToIndex image i' j' k' t').
  apply insideb_inside in Hin, Hin'.
  rewrite list_lookup_insert_ne; [done|].
  pose proof (VoxelToIndex_bound _ _ _ _ _ Hin).
  pose proof (VoxelToIndex_bound _ _ _ _ _ Hin').
  intros E. apply Hne.
  assert (VoxelToIndex image i j k t = VoxelToIndex image i' j' k' t') as E' by lia.
  apply VoxelToIndex_inj in E' as (-> & -> & -> & ->); done.
Qed.

(** ** irtkPadding(image, padding) *)

Lemma same_dims_inside image image' x j k t :
  same_dims image image' → inside image' x j k t ↔ inside image x j k t.
Proof. unfold inside. by intros (-> & -> & -> & ->). Qed.

(** The scan for the end of a run stops, at the end of the run. *)
Lemma scan_run_spec fuel image j k t l0 :
  l0 ≤ GetX image → (Z.to_nat (GetX image - l0) < fuel)%nat →
  ∃ l, scan_run fuel image j k t l0 = Some l ∧
       l0 ≤ l ≤ GetX image ∧
       (∀ q, l0 ≤ q < l → Get image q j k t = -1) ∧
       (l < GetX image → Get image l j k t ≠ -1).
Proof.
  revert l0. induction fuel as [|fuel IH]; intros l0 Hl0 Hfuel; [lia|].
  simpl. destruct (Z.ltb_spec l0 (GetX image)) as [Hlt|Hge].
  - destruct (Z.eqb_spec (Get image l0 j k t) (-1)) as [E|N]; simpl.
    + destruct (IH (l0 + 1)) as (l & El & Hl & Hrun & Hend); [lia|lia|].
      exists l. split; [done|]. split; [lia|]. split; [|done].
      intros q Hq. destruct (decide (q = l0)) as [->|]; [done|].
      apply Hrun. lia.
    + exists l0. split; [done|]. split; [lia|]. split; [intros; lia|done].
  - exists l0. split; [done|]. split; [lia|]. split; intros; lia.
Qed.

(** The fill writes the distances of the run and nothing else. *)
Lemma fill_run_spec image j k t i l :
  wf_image image → i ≤ l →
  (∀ p, i ≤ p < l → inside image p j k t) →
  wf_image (fill_run image j k t i l) ∧
  same_dims image (fill_run image j k t i l) ∧
  ∀ x j' k' t',
    Get (fill_run image j k t i l) x j' k' t' =
    if decide ((j', k', t') = (j, k, t) ∧ i ≤ x < l)
    then irtkGreyPixel (- (l - x))
    else Get image x j' k' t'.
Proof.
  intros Hwf Hil Hin. unfold fill_run.
  set (P := λ (h : Z) (image' : irtkGreyImage),
           wf_image image' ∧ same_dims image image' ∧
           ∀ x j' k' t',
             Get image' x j' k' t' =
             if decide ((j', k', t') = (j, k, t) ∧ i ≤ x < h)
             then irtkGreyPixel (- (l - x))
             else Get image x j' k' t').
  apply (for_loop_ind P); unfold P; [lia| |].
  - split; [done|]. split; [done|]. intros x j' k' t'.
    case_decide; [lia|done].
  - intros p img Hp (Hwf' & Hdims & Hget).
    split; [by apply Put_wf|]. split.
    { unfold same_dims.
      destruct (Put_dims img p j k t (irtkGreyPixel (- (l - p))))
        as (-> & -> & -> & ->). done. }
    intros x j' k' t'.
    destruct (decide ((x, j', k', t') = (p, j, k, t))) as [[= -> -> -> ->]|Hne].
    + rewrite Get_Put_same; [|done|].
      * case_decide as Hd; [done|]. exfalso. apply Hd. split; [done|lia].
      * apply (same_dims_inside image); [done|]. apply Hin. lia.
    + rewrite Get_Put_other by done. rewrite Hget.
      repeat case_decide; try done.
      * exfalso. destruct H as [[= -> -> ->] ?]. apply H0. split; [done|lia].
      * exfalso. destruct H0 as [[= -> -> ->] ?].
        destruct (decide (x = p)) as [->|]; [by apply Hne|].
        apply H. split; [done|lia].
Qed.

Lemma ends_run_unique image j k t p l l' :
  ends_run image j k t p l → ends_run image j k t p l' → l = l'.
Proof.
  intros (Hl & Hrun & Hend) (Hl' & Hrun' & Hend').
  destruct (Z.lt_trichotomy l l') as [Hlt|[->|Hgt]]; [|done|].
  - exfalso. apply Hend; [lia|]. apply Hrun'. lia.
  - exfalso. apply Hend'; [lia|]. apply Hrun. lia.
Qed.

Lemma distances_iff image (V V' : Z → Z → Z → Z → Prop) image' :
  (∀ x j k t, inside image x j k t → V x j k t ↔ V' x j k t) →
  distances image V image' → distances image V' image'.
Proof.
  intros HV (Hwf & Hdims & H). split; [done|]. split; [done|].
  intros x j k t Hin. specialize (H x j k t Hin). rewrite <- (HV x j k t Hin).
  done.
Qed.

Section row_loop.
Variables (image : irtkGreyImage) (j k t : Z).
Variable visited : Z → Z → Z → Z → Prop.
Hypothesis row_inside :
  (0 ≤ j < GetY image) ∧ (0 ≤ k < GetZ image) ∧ (0 ≤ t < GetT image).
Hypothesis row_fresh : ∀ x, ¬ visited x j k t.

Local Abbreviation row_upto := (row_upto visited j k t).

Lemma row_loop_spec fuel i img :
  0 ≤ i ≤ GetX image →
  (Z.to_nat (GetX image - i) < fuel)%nat →
  distances image (row_upto i) img →
  ∃ img', row_loop fuel img j k t i = Some img' ∧
          distances image (row_upto (GetX image)) img'.
Proof.
  revert i img. induction fuel as [|fuel IH]; intros i img Hi Hfuel Hd; [lia|].
  pose proof Hd as (Hwf & Hdims & Hget).
  pose proof Hdims as (HX & HY & HZ & HT).
  cbn [row_loop]. rewrite HX.
  destruct (Z.ltb_spec i (GetX image)) as [Hlt|Hge].
  2:{ exists img. split; [done|]. replace (GetX image) with i by lia. done. }
  assert (∀ x, i ≤ x < GetX image → Get img x j k t = Get image x j k t) as Hrest.
  { intros x Hx. destruct (Hget x j k t) as [Hg _]; [unfold inside; lia|].
    apply Hg. intros [?|[_ ?]]; [by eapply row_fresh|lia]. }
  destruct (Z.eqb_spec (Get img i j k t) (-1)) as [E|N].
  - destruct (scan_run_spec (S fuel) img j k t i) as (l & El & Hl & Hrun & Hend);
      [lia|lia|].
    rewrite El. cbn [mbind option_bind]. rewrite HX in *.
    assert (i < l) as Hil.
    { destruct (decide (l = i)) as [->|]; [|lia]. exfalso. by apply Hend. }
    destruct (fill_run_spec img j k t i l) as (Hwf' & Hdims' & Hget');
      [done|lia| |].
    { intros p Hp. apply (same_dims_inside image); [done|]. unfold inside. lia. }
    replace (l - 1 + 1) with l by lia.
    apply IH; [lia|lia|].
    split; [done|]. split.
    { unfold same_dims. destruct Hdims' as (-> & -> & -> & ->). done. }
    intros x j' k' t' Hin. rewrite Hget'.
    assert (ends_run image j k t i l) as Hends.
    { split; [lia|]. split.
      - intros q Hq. rewrite <- Hrest by lia. apply Hrun. lia.
      - intros Hl'. rewrite <- Hrest by lia. by apply Hend. }
    case_decide as Hd'.
    + destruct Hd' as [[= -> -> ->] Hx]. split.
      * intros Hn. exfalso. apply Hn. right. split; [done|lia].
      * intros _. destruct Hends as (_ & Hrun' & Hend'). split.
        -- intros Hn. exfalso. apply Hn, Hrun'. lia.
        -- intros l' Hl'. do 3 f_equal.
           apply (ends_run_unique image j k t x); [|done].
           split; [lia|]. split; [|done]. intros q Hq. apply Hrun'. lia.
    + specialize (Hget x j' k' t' Hin). destruct Hget as [Hg1 Hg2]. split.
      * intros Hn. apply Hg1. intros [?|[? ?]]; apply Hn; [by left|].
        right. split; [done|lia].
      * intros [?|[Hrow Hx]]; [apply Hg2; by left|].
        apply Hg2. right. split; [done|].
        destruct (Z_lt_ge_dec x i); [done|]. exfalso. apply Hd'. split; [done|lia].
  - apply IH; [lia|lia|].
    split; [done|]. split; [done|].
    intros x j' k' t' Hin. specialize (Hget x j' k' t' Hin) as [Hg1 Hg2].
    destruct (decide ((x, j', k', t') = (i, j, k, t))) as [[= -> -> -> ->]|Hne].
    + split.
      * intros Hn. exfalso. apply Hn. right. split; [done|lia].
      * intros _. split; [intros _; apply Hrest; lia|].
        intros l (Hl & Hrun & _). exfalso. apply N.
        rewrite Hrest by lia. apply Hrun. lia.
    + split.
      * intros Hn. apply Hg1. intros [?|[? ?]]; apply Hn; [by left|].
        right. split; [done|lia].
      * intros [?|[[= -> -> ->] Hx]]; [apply Hg2; by left|].
        apply Hg2. right. split; [done|].
        destruct (decide (x = i)) as [->|]; [done|lia].
Qed.
End row_loop.

(** The first loop nest finds a negative voxel exactly when there is one. *)
Lemma count_padding_positive image :
  0 < (count_padding image).2 ↔
  ∃ i j k t, inside image i j k t ∧ Get image i j k t < 0.
Proof.
  unfold count_padding.
  set (I := λ s : Z * Z, 0 ≤ s.2). set (F := λ s : Z * Z, 0 < s.2).
  set (Q := λ t, ∃ i, 0 ≤ i < GetX image ∧ ∃ j, 0 ≤ j < GetY image ∧
          ∃ k, 0 ≤ k < GetZ image ∧ Get image i j k t < 0).
  match goal with
  | |- 0 < (for_loop ?lo ?hi ?body ?s).2 ↔ _ =>
      destruct (for_loop_raises I F Q body lo hi s) as [_ HF];
        [| |change (F (for_loop lo hi body s) ↔
                    ∃ i j k t, inside image i j k t ∧ Get image i j k t < 0);
           rewrite HF; clear HF]
  end.
  - unfold I. simpl. lia.
  - intros t s Ht Hs. apply for_loop_raises; [done|].
    intros i s' Hi Hs'. apply for_loop_raises; [done|].
    intros j s'' Hj Hs''. apply for_loop_raises; [done|].
    intros k [m n] Hk Hn. unfold I, F in *. simpl in *.
    destruct (Z.ltb_spec (Get image i j k t) 0); simpl; split; lia.
  - unfold F, inside. simpl. split.
    + intros [?|(t & Ht & i & Hi & j & Hj & k & Hk & Hneg)]; [lia|].
      exists i, j, k, t. done.
    + intros (i & j & k & t & (Hi & Hj & Hk & Ht) & Hneg). right.
      exists t. split; [done|]. exists i. split; [done|]. exists j.
      split; [done|]. exists k. done.
Qed.

Section calculate_distances.
Variables (fuel : nat) (image : irtkGreyImage).
Hypothesis image_wf : wf_image image.
Hypothesis enough : (Z.to_nat (GetX image) < fuel)%nat.

(** One row, from a state where it has not been visited. *)
Lemma row_loop_row (V : Z → Z → Z → Z → Prop) img j k t :
  (0 ≤ j < GetY image) → (0 ≤ k < GetZ image) → (0 ≤ t < GetT image) →
  (∀ x, ¬ V x j k t) →
  distances image V img →
  ∃ img', row_loop fuel img j k t 0 = Some img' ∧
          distances image (λ x j' k' t', V x j' k' t' ∨ (j', k', t') = (j, k, t)) img'.
Proof.
  intros Hj Hk Ht Hfresh Hd.
  destruct image_wf as (HX & _).
  destruct (row_loop_spec image j k t V ltac:(done) Hfresh fuel 0 img)
    as (img' & E & Hd'); [lia|lia| |].
  - eapply distances_iff; [|exact Hd]. unfold row_upto, inside. intuition lia.
  - exists img'. split; [done|]. eapply distances_iff; [|exact Hd'].
    unfold row_upto, inside. intuition lia.
Qed.

Lemma calculate_distances_spec :
  ∃ image', calculate_distances fuel image = Some image' ∧
            distances image (λ _ _ _ _, True) image'.
Proof.
  unfold calculate_distances.
  set (row := λ t k j img, row_loop fuel img j k t 0).
  assert (∀ V t k img hi,
            (0 ≤ k < GetZ image) → (0 ≤ t < GetT image) → hi ≤ GetY image →
            (∀ x j, 0 ≤ j → ¬ V x j k t) →
            distances image V img →
            ∃ img', for_loopM 0 hi (row t k) img = Some img' ∧
              distances image
                (λ x j' k' t', V x j' k' t' ∨ (0 ≤ j' < hi ∧ k' = k ∧ t' = t)) img')
    as Hj.
  { intros V t k img hi Hk Ht Hhi Hfresh Hd. destruct (Z_le_gt_dec 0 hi).
    - apply (for_loopM_ind (λ h img',
        distances image
          (λ x j' k' t', V x j' k' t' ∨ (0 ≤ j' < h ∧ k' = k ∧ t' = t)) img'));
        [done| |].
      + eapply distances_iff; [|exact Hd]. intros; simpl; intuition lia.
      + intros j img' Hj' Hd'.
        assert (0 ≤ j < GetY image) as Hj'' by lia.
        assert (∀ x, ¬ (V x j k t ∨ (0 ≤ j < j ∧ k = k ∧ t = t))) as Hfr.
        { intros x [?|?]; [apply (Hfresh x j); [lia|done]|lia]. }
        destruct (row_loop_row _ img' j k t Hj'' Hk Ht Hfr Hd')
          as (img'' & E & Hd'').
        exists img''. split; [done|]. eapply distances_iff; [|exact Hd''].
        intros x j' k' t' _. simpl. split.
        * intros [[?|?]|[= -> -> ->]]; [by left|right; lia|right; lia].
        * intros [?|(? & -> & ->)]; [by left; left|].
          destruct (decide (j' = j)) as [->|]; [by right|]. left; right. lia.
    - rewrite for_loopM_nil by lia. exists img. split; [done|].
      eapply distances_iff; [|exact Hd]. intros; simpl; intuition lia. }
  assert (∀ V t img hi,
            (0 ≤ t < GetT image) → hi ≤ GetZ image →
            (∀ x j k, 0 ≤ k → ¬ V x j k t) →
            distances image V img →
            ∃ img', for_loopM 0 hi (λ k, for_loopM 0 (GetY image) (row t k)) img
                    = Some img' ∧
              distances image
                (λ x j' k' t', V x j' k' t' ∨
                   (0 ≤ j' < GetY image ∧ 0 ≤ k' < hi ∧ t' = t)) img')
    as Hk.
  { intros V t img hi Ht Hhi Hfresh Hd. destruct (Z_le_gt_dec 0 hi).
    - apply (for_loopM_ind (λ h img',
        distances image
          (λ x j' k' t', V x j' k' t' ∨
             (0 ≤ j' < GetY image ∧ 0 ≤ k' < h ∧ t' = t)) img'));
        [done| |].
      + eapply distances_iff; [|exact Hd]. intros; simpl; intuition lia.
      + intros k img' Hk' Hd'.
        assert (0 ≤ k < GetZ image) as Hk'' by lia.
        assert (∀ x j, 0 ≤ j →
                  ¬ (V x j k t ∨ (0 ≤ j < GetY image ∧ 0 ≤ k < k ∧ t = t))) as Hfr.
        { intros x j Hj' [?|?]; [apply (Hfresh x j k); [lia|done]|lia]. }
        destruct (Hj _ t k img' (GetY image) Hk'' Ht (Z.le_refl _) Hfr Hd')
          as (img'' & E & Hd'').
        exists img''. split; [done|]. eapply distances_iff; [|exact Hd''].
        intros; simpl; intuition lia.
    - rewrite for_loopM_nil by lia. exists img. split; [done|].
      eapply distances_iff; [|exact Hd]. intros; simpl; intuition lia. }
  assert (distances image (λ _ _ _ _, False) image) as H0.
  { split; [done|]. split; [done|]. intros x j k t _. split; [done|]. tauto. }
  destruct image_wf as (_ & _ & _ & HT & _).
  destruct (for_loopM_ind (λ h img',
      distances image
        (λ x j' k' t', 0 ≤ j' < GetY image ∧ 0 ≤ k' < GetZ image ∧ 0 ≤ t' < h) img')
      0 (GetT image)
      (λ t, for_loopM 0 (GetZ image) (λ k, for_loopM 0 (GetY image) (row t k)))
      image HT) as (image' & E & Hd).
  - eapply distances_iff; [|exact H0]. intros; simpl; intuition lia.
  - intros t img' Ht Hd'.
    assert (∀ (x : Z) j k, 0 ≤ k →
              ¬ (0 ≤ j < GetY image ∧ 0 ≤ k < GetZ image ∧ 0 ≤ t < t)) as Hfr.
    { intros x j k Hk'. lia. }
    destruct (Hk _ t img' (GetZ image) Ht (Z.le_refl _) Hfr Hd')
      as (img'' & E & Hd'').
    exists img''. split; [done|]. eapply distances_iff; [|exact Hd''].
    intros; simpl; intuition lia.
  - exists image'. split; [done|]. eapply distances_iff; [|exact Hd].
    unfold inside. intros; simpl; intuition lia.
Qed.
End calculate_distances.

(** The whole function, in the words of its second loop nest. *)
Lemma irtkPadding_distances fuel image padding :
  wf_image image → (Z.to_nat (GetX image) < fuel)%nat →
  ∃ image', irtkPadding fuel image padding = Some image' ∧
            distances image (λ _ _ _ _, True) image'.
Proof.
  intros Hwf Hfuel. unfold irtkPadding.
  pose proof (count_padding_positive image) as Hcount.
  destruct (count_padding image) as [m n]. simpl in Hcount.
  destruct (Z.ltb_spec 0 n) as [Hn|Hn].
  - by apply calculate_distances_spec.
  - exists image. split; [done|]. split; [done|]. split; [done|].
    intros x j k t Hin. split; [done|]. intros _. split; [done|].
    intros l (Hl & Hrun & _). exfalso.
    assert (0 < n); [|lia]. apply Hcount. exists x, j, k, t. split; [done|].
    rewrite Hrun; lia.
Qed.

(** A value in the range of the pixel type is stored as it is ... *)
Lemma irtkGreyPixel_id v : -32768 ≤ v ≤ 32767 → irtkGreyPixel v = v.
Proof. intros Hv. unfold irtkGreyPixel. rewrite Z.mod_small; lia. Qed.

(** ... and whatever is stored is in that range. *)
Lemma irtkGreyPixel_range v : -32768 ≤ irtkGreyPixel v ≤ 32767.
Proof.
  unfold irtkGreyPixel. pose proof (Z.mod_pos_bound (v + 32768) 65536). lia.
Qed.

(** C8.  [irtkPadding(image, padding)] changes no voxel other than those
    that are -1; a voxel at [p] in a run of -1 along x that ends just before
    [l] becomes [-(l - p)] as a 16-bit pixel holds it, which is [-(l - p)]
    itself as long as the run from [p] has at most 32768 voxels; and an
    image without a negative voxel is left as it is.  One round of the loop
    over [i] for each voxel of a row, and one more, are enough. *)
Theorem irtkPadding_spec (fuel : nat) (image : irtkGreyImage) (padding : Z) :
  wf_image image → (Z.to_nat (GetX image) < fuel)%nat →
  ∃ image',
    irtkPadding fuel image padding = Some image' ∧
    same_dims image image' ∧
    (∀ i j k t, inside image i j k t → Get image i j k t ≠ -1 →
                Get image' i j k t = Get image i j k t) ∧
    (∀ p j k t l, inside image p j k t → ends_run image j k t p l →
                  Get image' p j k t = irtkGreyPixel (- (l - p)) ∧
                  (l - p ≤ 32768 → Get image' p j k t = - (l - p))) ∧
    ((∀ i j k t, inside image i j k t → 0 ≤ Get image i j k t) →
     image' = image).
Proof.
  intros Hwf Hfuel. unfold irtkPadding.
  pose proof (count_padding_positive image) as Hcount.
  destruct (count_padding image) as [m n]. simpl in Hcount.
  destruct (Z.ltb_spec 0 n) as [Hn|Hn].
  - destruct (calculate_distances_spec fuel image Hwf Hfuel)
      as (image' & E & _ & Hdims & Hget).
    exists image'. split; [done|]. split; [done|]. split; [|split].
    + intros i j k t Hin Hne. by apply Hget.
    + intros p j k t l Hin Hrun.
      assert (Get image' p j k t = irtkGreyPixel (- (l - p))) as ->
        by by apply Hget.
      split; [done|]. intros Hshort. destruct Hrun as (Hl & _).
      apply irtkGreyPixel_id. lia.
    + intros Hpos. exfalso. apply Hcount in Hn as (i & j & k & t & Hin & Hneg).
      specialize (Hpos i j k t Hin). lia.
  - exists image. split; [done|]. split; [done|]. split; [done|]. split; [|done].
    intros p j k t l Hin (Hl & Hrun & _). exfalso.
    assert (0 < n); [|lia]. apply Hcount. exists p, j, k, t. split; [done|].
    rewrite Hrun; lia.
Qed.

Lemma irtkPadding_spec_witness :
  let image := mkImage 4 2 1 1 [5; -1; -1; 3; -1; -1; -1; -7] in
  ∃ image',
    irtkPadding 5 image 0 = Some image' ∧
    same_dims image image' ∧
    (∀ i j k t, inside image i j k t → Get image i j k t ≠ -1 →
                Get image' i j k t = Get image i j k t) ∧
    (∀ p j k t l, inside image p j k t → ends_run image j k t p l →
                  Get image' p j k t = irtkGreyPixel (- (l - p)) ∧
                  (l - p ≤ 32768 → Get image' p j k t = - (l - p))) ∧
    ((∀ i j k t, inside image i j k t → 0 ≤ Get image i j k t) →
     image' = image).
Proof.
  apply (irtkPadding_spec 5 (mkImage 4 2 1 1 [5; -1; -1; 3; -1; -1; -1; -7]) 0).
  - unfold wf_image, GetNumberOfVoxels. simpl. lia.
  - simpl. lia.
Defined.

(** A row of [X] voxels that are all -1 is one run, and the first voxel
    ends with [-X] as a pixel holds it. *)
Lemma irtkPadding_long_run (X : Z) (fuel : nat) :
  0 < X → (Z.to_nat X < fuel)%nat →
  let image := mkImage X 1 1 1 (replicate (Z.to_nat X) (-1)) in
  wf_image image ∧ inside image 0 0 0 0 ∧ ends_run image 0 0 0 0 X ∧
  ∃ image', irtkPadding fuel image 0 = Some image' ∧
            Get image' 0 0 0 0 = irtkGreyPixel (- X).
Proof.
  intros HX Hfuel image.
  assert (wf_image image) as Hwf.
  { unfold wf_image, GetNumberOfVoxels, image. cbn [GetX GetY GetZ GetT voxels].
    rewrite length_replicate. lia. }
  assert (inside image 0 0 0 0) as Hin.
  { unfold inside, image. cbn [GetX GetY GetZ GetT]. lia. }
  assert (ends_run image 0 0 0 0 X) as Hrun.
  { split; [unfold image; cbn [GetX]; lia|]. split.
    - intros q Hq. unfold Get.
      assert (inside image q 0 0 0) as Hq'.
      { unfold inside, image. cbn [GetX GetY GetZ GetT]. lia. }
      apply insideb_inside in Hq'. rewrite Hq'.
      replace (VoxelToIndex image q 0 0 0) with q
        by (unfold VoxelToIndex, image; cbn [GetX GetY GetZ]; lia).
      unfold image. cbn [voxels]. rewrite lookup_replicate_2; [done|lia].
    - unfold image. cbn [GetX]. lia. }
  split; [done|]. split; [done|]. split; [done|].
  destruct (irtkPadding_distances fuel image 0 Hwf)
    as (image' & E & _ & _ & Hget); [unfold image; cbn [GetX]; lia|].
  exists image'. split; [done|].
  destruct (Hget 0 0 0 0 Hin) as [_ Hv]. destruct (Hv I) as [_ Hdist].
  rewrite (Hdist X Hrun). f_equal. lia.
Qed.

(** C8, counterexample.  A row of 32769 voxels that are all -1 is one run;
    its first voxel is 32769 voxels before the end of the run, and the
    pixel holds 32767 after the call, not -32769. *)
Lemma irtkPadding_spec_counterexample :
  let image := mkImage 32769 1 1 1 (replicate (Z.to_nat 32769) (-1)) in
  wf_image image ∧ inside image 0 0 0 0 ∧ ends_run image 0 0 0 0 32769 ∧
  ∃ image', irtkPadding (Z.to_nat 32770) image 0 = Some image' ∧
            Get image' 0 0 0 0 = 32767 ∧
            Get image' 0 0 0 0 ≠ - (32769 - 0).
Proof.
  destruct (irtkPadding_long_run 32769 (Z.to_nat 32770))
    as (Hwf & Hin & Hrun & image' & E & Hget); [lia|lia|].
  split; [exact Hwf|]. split; [exact Hin|]. split; [exact Hrun|].
  exists image'. split; [exact E|]. rewrite Hget.
  split; [reflexivity|]. intros Heq. discriminate Heq.
Qed.

Example irtkPadding_run :
  irtkPadding 5 (mkImage 4 2 1 1 [5; -1; -1; 3; -1; -1; -1; -7]) 0
  = Some (mkImage 4 2 1 1 [5; -2; -1; 3; -3; -2; -1; -7]).
Proof. reflexivity. Qed.

Example irtkPadding_no_negative :
  irtkPadding 5 (mkImage 2 2 1 1 [5; 0; 1; 3]) 0
  = Some (mkImage 2 2 1 1 [5; 0; 1; 3]).
Proof. reflexivity. Qed.

(** ** read_line *)

Lemma skipped_passed_over line : skipped line = true ↔ passed_over line.
Proof.
  unfold skipped, passed_over, empty_or_comment.
  rewrite !orb_true_iff, Nat.eqb_eq.
  destruct (Ascii.eqb_spec (char_at line 0) "#"),
           (Ascii.eqb_spec (char_at line 0) CR); intuition congruence.
Qed.

Lemma skipped_not_passed_over line : skipped line = false ↔ ¬ passed_over line.
Proof. rewrite <- skipped_passed_over. by destruct (skipped line). Qed.

(** One round of the first loop on a line it passes over. *)
Lemma read_line_pass fuel in_ line in_' buffer1 buffer2 :
  eof in_ = false → getline in_ 255 = (line, in_') → passed_over line →
  read_line (S fuel) in_ buffer1 buffer2 = read_line fuel in_' line buffer2.
Proof.
  intros He Hg Hp. cbn [read_line]. rewrite He, Hg.
  apply skipped_passed_over in Hp. by rewrite Hp.
Qed.

Lemma buffer_after_cons buffer1 line lines :
  buffer_after line lines = buffer_after buffer1 (line :: lines).
Proof.
  unfold buffer_after. destruct lines as [|l ls]; [done|].
  rewrite last_cons_cons, last_cons. by destruct (last ls).
Qed.

(** The rounds over a sequence of such lines. *)
Lemma read_line_reads in_ lines in_' :
  reads in_ lines in_' → Forall passed_over lines →
  ∀ fuel buffer1 buffer2,
    read_line (length lines + fuel) in_ buffer1 buffer2 =
    read_line fuel in_' (buffer_after buffer1 lines) buffer2.
Proof.
  induction 1 as [in_|in_ line in1 lines in2 He Hg Hr IH]; intros Hall fuel b1 b2.
  - done.
  - rewrite Forall_cons in Hall. destruct Hall as [Hp Hall].
    change (length (line :: lines) + fuel)%nat with (S (length lines + fuel)).
    rewrite (read_line_pass _ _ _ _ _ _ He Hg Hp). rewrite IH by done.
    f_equal. apply buffer_after_cons.
Qed.

Lemma strchr_first_equals line e :
  strchr line "=" = Some e ↔ first_equals line e.
Proof.
  unfold first_equals, char_at. revert e.
  induction line as [|c line IH]; intros e; simpl.
  - split; [done|]. intros (? & _). lia.
  - destruct (Ascii.eqb_spec c NUL) as [->|Hnul].
    { split; [done|]. intros (? & _). lia. }
    destruct (Ascii.eqb_spec c "=") as [->|Hne].
    + split.
      * intros [= <-]. split; [lia|]. split; [done|]. intros; lia.
      * intros (_ & _ & Hfirst). destruct e as [|e]; [done|].
        exfalso. by apply (Hfirst 0%nat); [lia|].
    + destruct (strchr line "=") as [e'|] eqn:E; simpl.
      * split.
        -- intros [= <-]. destruct (proj1 (IH e') eq_refl) as (? & ? & Hf).
           split; [lia|]. split; [done|]. intros [|q] Hq; [done|].
           apply Hf. lia.
        -- intros (Hlen & Hc & Hf). destruct e as [|e]; [done|].
           f_equal. f_equal. symmetry.
           assert (Some e' = Some e) as [= ->]; [|done].
           apply IH. split; [lia|]. split; [done|].
           intros q Hq. apply (Hf (S q)). lia.
      * split; [done|]. intros (Hlen & Hc & Hf). destruct e as [|e]; [done|].
        assert (None = Some e); [|done]. apply IH.
        split; [lia|]. split; [done|]. intros q Hq. apply (Hf (S q)). lia.
Qed.

Lemma strchr_absent line : "="%char ∉ line → strchr line "=" = None.
Proof.
  induction line as [|c line IH]; intros Hn; simpl; [done|].
  destruct (Ascii.eqb_spec c NUL); [done|].
  destruct (Ascii.eqb_spec c "=") as [->|]; [exfalso; apply Hn; left|].
  rewrite IH; [done|]. intros ?. apply Hn. by right.
Qed.

Lemma blank_eqb c : Ascii.eqb c " " || Ascii.eqb c TAB = true ↔ blank c.
Proof.
  unfold blank. rewrite orb_true_iff.
  destruct (Ascii.eqb_spec c " "), (Ascii.eqb_spec c TAB); intuition congruence.
Qed.

Lemma nth_drop_add {A} (l : list A) p q d : nth q (drop p l) d = nth (p + q) l d.
Proof.
  revert l. induction p as [|p IH]; intros [|x l]; simpl; try done.
  by destruct q.
Qed.

(** The second loop stops at the first character that is not a blank. *)
Lemma skip_blanks_spec line e :
  value_start line e (skip_blanks (drop (S e) line) (S e)).
Proof.
  unfold value_start, char_at.
  cut (∀ rest p, let p' := skip_blanks rest p in
         (p ≤ p')%nat ∧
         (∀ q, (q < p' - p)%nat → blank (nth q rest NUL)) ∧
         ¬ blank (nth (p' - p) rest NUL)).
  { intros H. destruct (H (drop (S e) line) (S e)) as (Hle & Hb & Hn).
    split; [lia|]. split.
    - intros q Hq. specialize (Hb (q - S e)%nat). rewrite nth_drop_add in Hb.
      replace (S e + (q - S e))%nat with q in Hb by lia. apply Hb. lia.
    - rewrite nth_drop_add in Hn.
      by replace (S e + (skip_blanks (drop (S e) line) (S e) - S e))%nat
        with (skip_blanks (drop (S e) line) (S e)) in Hn by lia. }
  induction rest as [|c rest IH]; intros p; simpl.
  - rewrite Nat.sub_diag. split; [lia|]. split; [intros; lia|].
    unfold blank. intros [?|?]; done.
  - destruct (Ascii.eqb c " " || Ascii.eqb c TAB) eqn:E.
    + apply blank_eqb in E. destruct (IH (S p)) as (Hle & Hb & Hn).
      split; [lia|]. split.
      * intros [|q] Hq; [done|]. apply Hb. lia.
      * replace (skip_blanks rest (S p) - p)%nat
          with (S (skip_blanks rest (S p) - S p)) by lia. done.
    + rewrite Nat.sub_diag. split; [lia|]. split; [intros; lia|].
      rewrite <- blank_eqb, E. done.
Qed.

(** The round of the first loop that meets a line it does not pass over. *)
Lemma read_line_accept fuel in_ line in_' buffer1 buffer2 :
  eof in_ = false → getline in_ 255 = (line, in_') → ¬ passed_over line →
  read_line (S fuel) in_ buffer1 buffer2 =
  match strchr line "=" with
  | None => Some (Exited 1 no_valid_line)
  | Some e => Some (Returned (Z.of_nat (strlen line)) line
                      (Some (skip_blanks (drop (S e) line) (S e))) in_')
  end.
Proof.
  intros He Hg Hp. cbn [read_line]. rewrite He, Hg.
  apply skipped_not_passed_over in Hp. by rewrite Hp.
Qed.


(** C4.  When the first line that [read_line] does not pass over holds no
    '=', the call writes its diagnostic and ends the process with status 1;
    it does not return. *)
Theorem read_line_no_equals (fuel : nat) (in_ in1 in2 : istream)
    (lines : list (list ascii)) (line buffer1 : list ascii)
    (buffer2 : option nat) :
  reads in_ lines in1 → Forall passed_over lines →
  eof in1 = false → getline in1 255 = (line, in2) → ¬ passed_over line →
  "="%char ∉ line →
  (length lines < fuel)%nat →
  read_line fuel in_ buffer1 buffer2 = Some (Exited 1 no_valid_line).
Proof.
  intros Hr Hall He Hg Hp Hno Hfuel.
  replace fuel with (length lines + S (fuel - length lines - 1))%nat by lia.
  rewrite (read_line_reads _ _ _ Hr Hall).
  rewrite (read_line_accept _ _ _ _ _ _ He Hg Hp).
  by rewrite strchr_absent.
Qed.


(** C10.  After the lines it passes over, those starting with a carriage
    return included: at the end of the input [read_line] returns 0 and does
    not end the process; at a line with an '=' that it does not pass over it
    returns the length of the line, and the pointer is at the first
    character after the '=' that is neither a space nor a tab. *)
Theorem read_line_result (fuel : nat) (in_ in1 : istream)
    (lines : list (list ascii)) (buffer1 : list ascii) (buffer2 : option nat) :
  reads in_ lines in1 → Forall passed_over lines →
  (length lines < fuel)%nat →
  (eof in1 = true →
     read_line fuel in_ buffer1 buffer2 =
     Some (Returned 0 (buffer_after buffer1 lines) buffer2 in1)) ∧
  (∀ line in2 e,
     eof in1 = false → getline in1 255 = (line, in2) → ¬ passed_over line →
     first_equals line e →
     ∃ p, value_start line e p ∧
          read_line fuel in_ buffer1 buffer2 =
          Some (Returned (Z.of_nat (strlen line)) line (Some p) in2)).
Proof.
  intros Hr Hall Hfuel.
  replace fuel with (length lines + S (fuel - length lines - 1))%nat by lia.
  rewrite (read_line_reads _ _ _ Hr Hall). split.
  - intros He. cbn [read_line]. by rewrite He.
  - intros line in2 e He Hg Hp Hfirst.
    rewrite (read_line_accept _ _ _ _ _ _ He Hg Hp).
    apply strchr_first_equals in Hfirst. rewrite Hfirst.
    eexists. split; [apply skip_blanks_spec|done].
Qed.

(** *** [getline] on the lines of a file *)

Lemma extract_cons room c cs :
  extract room (c :: cs) =
  if Ascii.eqb c LF then ([], 1%nat, cs, (false, false))
  else match room with
       | O => ([], 0%nat, c :: cs, (false, true))
       | S room' =>
           let '(stored, count, rest, bits) := extract room' cs in
           (c :: stored, S count, rest, bits)
       end.
Proof. by destruct room. Qed.

Lemma extract_line room line rest :
  LF ∉ line → (length line ≤ room)%nat →
  extract room (line ++ LF :: rest) = (line, S (length line), rest, (false, false)).
Proof.
  revert room. induction line as [|c line IH]; intros room Hn Hlen.
  - simpl. by rewrite extract_cons.
  - rewrite <- app_comm_cons, extract_cons.
    destruct (Ascii.eqb_spec c LF) as [->|_]; [exfalso; apply Hn; left|].
    destruct room as [|room]; [simpl in Hlen; lia|].
    rewrite IH; [done| |simpl in Hlen; lia]. intros ?. apply Hn. by right.
Qed.

Lemma extract_end room line :
  LF ∉ line → (length line ≤ room)%nat →
  extract room line = (line, length line, [], (true, false)).
Proof.
  revert room. induction line as [|c line IH]; intros room Hn Hlen.
  - by destruct room.
  - rewrite extract_cons.
    destruct (Ascii.eqb_spec c LF) as [->|_]; [exfalso; apply Hn; left|].
    destruct room as [|room]; [simpl in Hlen; lia|].
    rewrite IH; [done| |simpl in Hlen; lia]. intros ?. apply Hn. by right.
Qed.

Lemma extract_full room line c rest :
  LF ∉ line → length line = room → c ≠ LF →
  extract room (line ++ c :: rest) = (line, length line, c :: rest, (false, true)).
Proof.
  revert room. induction line as [|d line IH]; intros room Hn Hlen Hc.
  - subst room. simpl. by destruct (Ascii.eqb_spec c LF).
  - rewrite <- app_comm_cons, extract_cons.
    destruct (Ascii.eqb_spec d LF) as [->|_]; [exfalso; apply Hn; left|].
    destruct room as [|room]; [simpl in Hlen; lia|].
    rewrite (IH room); [done| |simpl in Hlen; lia|done].
    intros ?. apply Hn. by right.
Qed.

(** A line of at most 254 characters followed by its newline is read whole,
    and the stream stays good. *)
Lemma getline_line line rest :
  LF ∉ line → (length line ≤ 254)%nat →
  getline (mkStream (line ++ LF :: rest) false false) 255
  = (line, mkStream rest false false).
Proof.
  intros Hn Hlen. unfold getline. simpl good. cbn iota.
  change (255 - 1)%nat with 254%nat. cbn [pending].
  by rewrite extract_line.
Qed.

(** The last line, when no newline ends it, is read whole and [eofbit] is
    set; [failbit] is set as well when nothing was left to read. *)
Lemma getline_last line :
  LF ∉ line → (length line ≤ 254)%nat →
  getline (mkStream line false false) 255
  = (line, mkStream [] true (length line =? 0)%nat).
Proof.
  intros Hn Hlen. unfold getline. simpl good. cbn iota.
  change (255 - 1)%nat with 254%nat. cbn [pending].
  by rewrite extract_end.
Qed.

(** Of a longer line the first 254 characters are read and [failbit] is
    set. *)
Lemma getline_long line c rest :
  LF ∉ line → length line = 254%nat → c ≠ LF →
  getline (mkStream (line ++ c :: rest) false false) 255
  = (line, mkStream (c :: rest) false true).
Proof.
  intros Hn Hlen Hc. unfold getline. simpl good. cbn iota.
  change (255 - 1)%nat with 254%nat. cbn [pending].
  rewrite (extract_full 254 line c rest Hn Hlen Hc). by rewrite Hlen.
Qed.

(** Once [failbit] is set and [eofbit] is not, every [getline] leaves the
    empty string and the first loop of [read_line] has no exit: no amount of
    fuel yields an answer. *)
Lemma read_line_failed fuel in_ buffer1 buffer2 :
  eofbit in_ = false → failbit in_ = true →
  read_line fuel in_ buffer1 buffer2 = None.
Proof.
  revert in_ buffer1. induction fuel as [|fuel IH]; intros in_ b1 He Hf; [done|].
  cbn [read_line]. unfold eof, getline, good. rewrite He, Hf. simpl.
  by apply IH.
Qed.

(** X7.  So a comment of more than 254 characters is passed over, and the
    call never answers. *)
Lemma read_line_long_comment fuel line c rest buffer1 buffer2 :
  LF ∉ line → length line = 254%nat → c ≠ LF → char_at line 0 = "#"%char →
  read_line fuel (mkStream (line ++ c :: rest) false false) buffer1 buffer2
  = None.
Proof.
  intros Hn Hlen Hc Hhash. destruct fuel as [|fuel]; [done|].
  rewrite (read_line_pass fuel _ line (mkStream (c :: rest) false true));
    [by apply read_line_failed|done|by apply getline_long|].
  left. by right.
Qed.

Lemma text_cons line lines :
  text (line :: lines) = list_ascii_of_string line ++ LF :: text lines.
Proof. unfold text. simpl. by rewrite <- app_assoc. Qed.

Lemma text_app lines lines' : text (lines ++ lines') = text lines ++ text lines'.
Proof. unfold text. apply flat_map_app. Qed.

(** The lines of a text file, none longer than 254 characters, are what the
    successive calls of [getline] deliver. *)
Lemma reads_text (lines : list string) (rest : list ascii) :
  Forall (λ s, (LF ∉ list_ascii_of_string s) ∧
               (length (list_ascii_of_string s) ≤ 254)%nat) lines →
  reads (mkStream (text lines ++ rest) false false)
        (list_ascii_of_string <$> lines)
        (mkStream rest false false).
Proof.
  induction 1 as [|s lines [Hn Hlen] _ IH]; [constructor|].
  rewrite text_cons, <- app_assoc, <- app_comm_cons. simpl.
  econstructor; [done|by apply getline_line|done].
Qed.

(** At the end of such a file one more call finds nothing and sets
    [eofbit]. *)
Lemma reads_end :
  reads (mkStream [] false false) [[]] (mkStream [] true true).
Proof. econstructor; [done|reflexivity|constructor]. Qed.

(** *** The statements at work on a small file *)

Lemma reads_text_example :
  reads (stream_of ["# Registration parameters"%string; EmptyString;
                    "Epsilon =  0.5"%string])
        [list_ascii_of_string "# Registration parameters"%string; []]
        (stream_of ["Epsilon =  0.5"%string]).
Proof. repeat (econstructor; [reflexivity|reflexivity|]). constructor. Qed.

Lemma read_line_no_equals_witness :
  read_line 3 (stream_of ["# Registration parameters"%string; EmptyString;
                          "Epsilon 0.5"%string])
    [] None
  = Some (Exited 1 no_valid_line).
Proof.
  apply (read_line_no_equals 3 _ (stream_of ["Epsilon 0.5"%string]) (stream_of [])
           [list_ascii_of_string "# Registration parameters"%string; []]
           (list_ascii_of_string "Epsilon 0.5"%string)).
  - repeat (econstructor; [reflexivity|reflexivity|]). constructor.
  - repeat (apply Forall_cons_2; [apply skipped_passed_over; reflexivity|]).
    apply Forall_nil_2.
  - reflexivity.
  - reflexivity.
  - apply skipped_not_passed_over. reflexivity.
  - rewrite list_elem_of_In. simpl. intuition discriminate.
  - simpl. lia.
Defined.

Lemma forallb_weaken {A} (f g : A → bool) (l : list A) :
  (∀ x, f x = true → g x = true) → forallb f l = true → forallb g l = true.
Proof.
  intros Hfg. rewrite !forallb_forall. intros H x Hx. apply Hfg, H, Hx.
Qed.

Lemma forallb_elem_of_false {A} (f : A → bool) (l : list A) x :
  forallb f l = true → f x = false → x ∉ l.
Proof.
  intros Hall Hx Hin. apply list_elem_of_In in Hin.
  rewrite forallb_forall in Hall. specialize (Hall x Hin). congruence.
Qed.



Lemma read_line_result_witness :
  let in_ := stream_of ["# Registration parameters"%string;
                        String CR EmptyString;
                        "Epsilon =  0.5"%string] in
  let in1 := stream_of ["Epsilon =  0.5"%string] in
  let lines := [list_ascii_of_string "# Registration parameters"; [CR]] in
  (eof in1 = true →
     read_line 3 in_ [] None =
     Some (Returned 0 (buffer_after [] lines) None in1)) ∧
  (∀ line in2 e,
     eof in1 = false → getline in1 255 = (line, in2) → ¬ passed_over line →
     first_equals line e →
     ∃ p, value_start line e p ∧
          read_line 3 in_ [] None =
          Some (Returned (Z.of_nat (strlen line)) line (Some p) in2)).
Proof.
  apply (read_line_result 3 _ _
           [list_ascii_of_string "# Registration parameters"; [CR]]).
  - repeat (econstructor; [reflexivity|reflexivity|]). constructor.
  - repeat (apply Forall_cons_2; [apply skipped_passed_over; reflexivity|]).
    apply Forall_nil_2.
  - simpl. lia.
Defined.

Example read_line_run :
  read_line 3 (stream_of ["# Registration parameters"%string; EmptyString;
                          "Epsilon =  0.5"%string; "Padding = -1"%string])
    [] None
  = Some (Returned 14 (list_ascii_of_string "Epsilon =  0.5") (Some 11%nat)
            (stream_of ["Padding = -1"%string])).
Proof. reflexivity. Qed.

Example read_line_end_of_file :
  read_line 4 (stream_of ["# only a comment"%string; EmptyString]) [] None
  = Some (Returned 0 [] None (mkStream [] true true)).
Proof. reflexivity. Qed.

(** ** The force of the additive mode *)

Lemma Force_at_equal mode factor epsilon v :
  (target_value v == source_value v)%Q →
  zero_vector (Force_at mode factor epsilon v).
Proof.
  intros Heq. unfold Force_at.
  assert (target_value v - source_value v == 0)%Q as Hdiff.
  { rewrite Heq. ring. }
  destruct (match mode with
            | _AdditiveDemons => target_gradient v
            | _CompositiveDemons => source_gradient v
            end) as [[gx gy] gz].
  destruct (is_padding v); [repeat split; reflexivity|].
  destruct (Qle_bool _ epsilon); [repeat split; reflexivity|].
  unfold zero_vector, Qdiv. rewrite !Hdiff. repeat split; ring.
Qed.

(** C7.  In the additive mode the force at a voxel whose target intensity
    equals the source intensity sampled at the displaced position is the
    zero vector, whatever the gradient there. *)
Theorem Force_additive_zero (factor epsilon : Q) (samples : list voxel_sample)
    (i : nat) (v : voxel_sample) :
  samples !! i = Some v →
  (target_value v == source_value v)%Q →
  ∃ f, Force _AdditiveDemons factor epsilon samples !! i = Some f ∧
       zero_vector f.
Proof.
  intros Hv Heq. unfold Force. rewrite list_lookup_fmap, Hv. simpl.
  eexists. split; [done|]. by apply Force_at_equal.
Qed.

Lemma Force_additive_zero_witness :
  let v := mkSample (1 # 2) (2 # 4) (3, -4, 5 # 7)%Q (0, 0, 0)%Q false in
  ∃ f, Force _AdditiveDemons 1 (1 # 100) [v] !! 0%nat = Some f ∧ zero_vector f.
Proof.
  apply (Force_additive_zero 1 (1 # 100) _ 0
           (mkSample (1 # 2) (2 # 4) (3, -4, 5 # 7)%Q (0, 0, 0)%Q false)).
  - reflexivity.
  - reflexivity.
Defined.

Example Force_at_run :
  let '(fx, fy, fz) :=
    Force_at _AdditiveDemons 1 (1 # 100)
      (mkSample 3 1 (1, 0, 0)%Q (0, 0, 0)%Q false) in
  (fx == 2 # 5 ∧ fy == 0 ∧ fz == 0)%Q.
Proof. vm_compute. repeat split. Qed.

(** ** The parameter file *)

Lemma parse_print_int z : parse_int (list_ascii_of_string (print_int z)) = Some z.
Proof.
  unfold parse_int, print_int.
  rewrite string_of_list_ascii_of_string, NilEmpty.isi. simpl.
  by rewrite DecimalZ.of_to.
Qed.

Lemma list_ascii_of_string_append s1 s2 :
  list_ascii_of_string (String.append s1 s2)
  = list_ascii_of_string s1 ++ list_ascii_of_string s2.
Proof. induction s1 as [|c s1 IH]; simpl; [done|]. by rewrite IH. Qed.

Lemma strlen_no_NUL cs :
  forallb (λ c, negb (Ascii.eqb c NUL)) cs = true → strlen cs = length cs.
Proof.
  induction cs as [|c cs IH]; simpl; [done|].
  destruct (Ascii.eqb c NUL); simpl; [done|]. intros H. by rewrite IH.
Qed.

Lemma strchr_app cs rest c :
  forallb (λ d, negb (Ascii.eqb d NUL) && negb (Ascii.eqb d c)) cs = true →
  strchr (cs ++ rest) c = (λ e, (length cs + e)%nat) <$> strchr rest c.
Proof.
  induction cs as [|d cs IH]; simpl.
  - intros _. by destruct (strchr rest c).
  - destruct (Ascii.eqb d NUL); simpl; [done|].
    destruct (Ascii.eqb d c); simpl; [done|].
    intros H. rewrite IH by done. by destruct (strchr rest c).
Qed.

Lemma rtrim_app_blank cs :
  cs ≠ [] →
  Ascii.eqb (char_at (rev cs) 0) " " || Ascii.eqb (char_at (rev cs) 0) TAB = false →
  rtrim (cs ++ [" "%char]) = cs.
Proof.
  induction cs as [|c cs IH]; [done|]. intros _ Hlast.
  destruct cs as [|d cs].
  - simpl in *. change (char_at [c] 0) with c in Hlast. by rewrite Hlast.
  - assert (rtrim ((d :: cs) ++ [" "%char]) = d :: cs) as E.
    { apply IH; [done|]. simpl in *. unfold char_at in *.
      destruct (rev cs ++ [d]) eqn:Er; [by destruct (rev cs)|]. done. }
    change (rtrim ((c :: d :: cs) ++ [" "%char]))
      with (match rtrim ((d :: cs) ++ [" "%char]) with
            | [] => if Ascii.eqb c " " || Ascii.eqb c TAB then [] else [c]
            | rest' => c :: rest'
            end).
    by rewrite E.
Qed.

Section parameter_line.
Variables (key value : string) (rest : list ascii).
Hypothesis key_ok : key_text key = true.
Hypothesis value_ok : token value = true.

Local Abbreviation K := (list_ascii_of_string key).
Local Abbreviation V := (list_ascii_of_string value).
Local Abbreviation line := (list_ascii_of_string (parameter_line key value)).

Lemma parameter_line_chars : line = K ++ " "%char :: "="%char :: " "%char :: V.
Proof.
  unfold parameter_line. by rewrite !list_ascii_of_string_append.
Qed.

Lemma key_facts :
  forallb (λ c, negb (Ascii.eqb c LF) && negb (Ascii.eqb c NUL) &&
                negb (Ascii.eqb c "=")) K = true ∧
  skipped K = false ∧
  Ascii.eqb (char_at (rev K) 0) " " || Ascii.eqb (char_at (rev K) 0) TAB = false ∧
  (length K ≤ 50)%nat.
Proof.
  unfold key_text in key_ok.
  rewrite !andb_true_iff, !negb_true_iff, Nat.leb_le in key_ok. tauto.
Qed.

Lemma value_facts :
  forallb (λ c, negb (Ascii.eqb c LF) && negb (Ascii.eqb c NUL)) V = true ∧
  Ascii.eqb (char_at V 0) " " || Ascii.eqb (char_at V 0) TAB = false ∧
  (length V ≤ 200)%nat.
Proof.
  unfold token in value_ok.
  rewrite !andb_true_iff, !negb_true_iff, Nat.leb_le in value_ok. tauto.
Qed.

Lemma K_not_nil : K ≠ [].
Proof. destruct key_facts as (_ & Hs & _). by destruct K. Qed.

Lemma line_no : ∀ c, c = LF ∨ c = NUL → c ∉ line.
Proof.
  intros c Hc. rewrite parameter_line_chars.
  destruct key_facts as (HK & _). destruct value_facts as (HV & _).
  rewrite elem_of_app, !elem_of_cons. intros [Hin|[->|[->|[->|Hin]]]].
  - revert Hin. eapply forallb_elem_of_false; [exact HK|].
    destruct Hc as [-> | ->]; reflexivity.
  - by destruct Hc.
  - by destruct Hc.
  - by destruct Hc.
  - revert Hin. eapply forallb_elem_of_false; [exact HV|].
    destruct Hc as [-> | ->]; reflexivity.
Qed.

Lemma line_strlen : strlen line = length line.
Proof.
  apply strlen_no_NUL. apply forallb_forall. intros c Hc.
  apply list_elem_of_In in Hc. destruct (Ascii.eqb_spec c NUL) as [->|]; [|done].
  exfalso. revert Hc. apply line_no. by right.
Qed.

Lemma line_strchr : strchr line "=" = Some (S (length K)).
Proof.
  rewrite parameter_line_chars.
  destruct key_facts as (HK & _).
  rewrite strchr_app.
  - simpl. f_equal. lia.
  - eapply forallb_weaken; [|exact HK]. intros c. simpl.
    rewrite !andb_true_iff. tauto.
Qed.

Lemma line_skip_blanks :
  skip_blanks (drop (S (S (length K))) line) (S (S (length K)))
  = (length K + 3)%nat.
Proof.
  rewrite parameter_line_chars.
  replace (S (S (length K))) with (length K + 2)%nat at 1 by lia.
  rewrite drop_app_add. simpl.
  destruct value_facts as (_ & Hb & _).
  destruct V as [|c cs]; simpl; [lia|]. unfold char_at in Hb. simpl in Hb.
  rewrite Hb. lia.
Qed.

Lemma line_not_skipped : skipped line = false.
Proof.
  destruct key_facts as (_ & Hs & _). rewrite parameter_line_chars.
  pose proof K_not_nil. destruct K as [|c cs]; [done|].
  unfold skipped, char_at in *. simpl in *.
  by destruct (Ascii.eqb c NUL).
Qed.

(** [read_line] at a line [Key = Value]. *)
Lemma read_line_parameter fuel buffer1 buffer2 :
  read_line (S fuel) (mkStream (line ++ LF :: rest) false false) buffer1 buffer2
  = Some (Returned (Z.of_nat (length line)) line (Some (length K + 3)%nat)
            (mkStream rest false false)).
Proof.
  rewrite (read_line_accept fuel _ line (mkStream rest false false)).
  - rewrite line_strchr, line_skip_blanks, line_strlen. done.
  - done.
  - apply getline_line; [apply line_no; by left|].
    rewrite parameter_line_chars, length_app. simpl.
    destruct key_facts as (_ & _ & _ & ?). destruct value_facts as (_ & _ & ?).
    lia.
  - apply skipped_not_passed_over, line_not_skipped.
Qed.

Lemma line_key_of : key_of line = key.
Proof.
  unfold key_of. rewrite line_strchr. rewrite parameter_line_chars.
  replace (S (length K)) with (length K + 1)%nat by lia.
  rewrite take_app_add. simpl. destruct key_facts as (_ & _ & Hlast & _).
  rewrite rtrim_app_blank; [|apply K_not_nil|done].
  apply string_of_list_ascii_of_string.
Qed.

Lemma line_value_of : value_of line (Some (length K + 3)%nat) = V.
Proof.
  unfold value_of. rewrite parameter_line_chars.
  rewrite drop_app_add. simpl.
  destruct value_facts as (HV & _).
  rewrite strlen_no_NUL, firstn_all; [done|].
  eapply forallb_weaken; [|exact HV]. intros c. simpl.
  rewrite !andb_true_iff. tauto.
Qed.
End parameter_line.

(** A line that [read_line] passes over, followed by its newline. *)
Lemma read_line_passed_line fuel (line rest buffer1 : list ascii) buffer2 :
  passed_over line → LF ∉ line → (length line ≤ 254)%nat →
  read_line (S fuel) (mkStream (line ++ LF :: rest) false false) buffer1 buffer2
  = read_line fuel (mkStream rest false false) line buffer2.
Proof.
  intros Hp Hn Hlen. apply read_line_pass; [done| |done].
  by apply getline_line.
Qed.

Section Read_Write.
Variable D : Type.
Variable print_double : D → string.
Variable parse_double : list ascii → option D.

(** One round of [Read] at a line [Key = Value]. *)
Lemma Read_lines_parameter key value rest fuel buffer1 buffer2 r :
  key_text key = true → token value = true →
  Read_lines D parse_double (S fuel)
    (mkStream (list_ascii_of_string (parameter_line key value) ++ LF :: rest)
       false false) buffer1 buffer2 r
  = Read_lines D parse_double fuel (mkStream rest false false)
      (list_ascii_of_string (parameter_line key value))
      (Some (length (list_ascii_of_string key) + 3)%nat)
      (set_parameter D parse_double key (list_ascii_of_string value) r).
Proof.
  intros Hk Hv. cbn [Read_lines].
  rewrite read_line_parameter by done.
  rewrite line_key_of by done. rewrite line_value_of by done.
  destruct (Z.eqb_spec (Z.of_nat (length (list_ascii_of_string
                                             (parameter_line key value)))) 0)
    as [E|]; [|done].
  exfalso. rewrite (parameter_line_chars key value) in E.
  rewrite length_app in E. simpl in E. lia.
Qed.

(** The round of [Read] at the end of the file. *)
Lemma Read_lines_end fuel buffer1 buffer2 r :
  Read_lines D parse_double (S (S fuel)) (mkStream [] false false)
    buffer1 buffer2 r
  = Some (ReadDone D r).
Proof. reflexivity. Qed.
End Read_Write.

Lemma read_line_passed_lines (passed : list string) rest fuel :
  Forall passed_line passed →
  ∀ buffer1 buffer2, ∃ buffer1',
    read_line (length passed + fuel) (mkStream (text passed ++ rest) false false)
      buffer1 buffer2
    = read_line fuel (mkStream rest false false) buffer1' buffer2.
Proof.
  induction 1 as [|s passed (Hp & Hn & Hlen) _ IH]; intros b1 b2.
  - by exists b1.
  - rewrite text_cons, <- app_assoc, <- app_comm_cons.
    change (length (s :: passed) + fuel)%nat with (S (length passed + fuel)).
    rewrite read_line_passed_line by done. apply IH.
Qed.

Section Read_Write_file.
Variable D : Type.
Variable print_double : D → string.
Variable parse_double : list ascii → option D.

(** One round of [Read] at a line [Key = Value] that comes after lines
    [read_line] passes over. *)
Lemma Read_lines_after passed key value rest fuel buffer1 buffer2 r :
  Forall passed_line passed →
  key_text key = true → token value = true →
  (length passed ≤ fuel)%nat →
  Read_lines D parse_double (S fuel)
    (mkStream (text passed ++
               list_ascii_of_string (parameter_line key value) ++ LF :: rest)
       false false) buffer1 buffer2 r
  = Read_lines D parse_double fuel (mkStream rest false false)
      (list_ascii_of_string (parameter_line key value))
      (Some (length (list_ascii_of_string key) + 3)%nat)
      (set_parameter D parse_double key (list_ascii_of_string value) r).
Proof.
  intros Hpassed Hk Hv Hfuel.
  rewrite <- (Read_lines_parameter D parse_double key value rest fuel
                buffer1 buffer2 r Hk Hv).
  cbn [Read_lines].
  destruct (read_line_passed_lines passed
              (list_ascii_of_string (parameter_line key value) ++ LF :: rest)
              (S (fuel - length passed)) Hpassed buffer1 buffer2) as [b1' E].
  replace (length passed + S (fuel - length passed))%nat with (S fuel) in E by lia.
  rewrite E. rewrite !read_line_parameter by done. done.
Qed.
End Read_Write_file.

Lemma header_passed : Forall passed_line header.
Proof.
  unfold header. repeat (apply Forall_cons_2; [|]); [..|apply Forall_nil_2];
    (split; [apply skipped_passed_over; reflexivity|]);
    (split; [rewrite list_elem_of_In; simpl; intuition discriminate|simpl; lia]).
Qed.

Section set_parameter.
Variable D : Type.
Variable print_double : D → string.
Variable parse_double : list ascii → option D.
Hypothesis parse_print :
  ∀ d, parse_double (list_ascii_of_string (print_double d)) = Some d.

(** [set_parameter] at the line [Write] wrote for a parameter. *)
Lemma set_parameter_Mode mode r :
  set_parameter D parse_double "Demons mode"
    (list_ascii_of_string (print_int (mode_code mode))) r
  = SetMode D mode r.
Proof.
  change (set_parameter D parse_double "Demons mode"
            (list_ascii_of_string (print_int (mode_code mode))) r)
    with (match parse_int (list_ascii_of_string (print_int (mode_code mode))) with
          | Some 0 => SetMode D _AdditiveDemons r
          | Some 1 => SetMode D _CompositiveDemons r
          | _ => r
          end).
  rewrite parse_print_int. by destruct mode.
Qed.

Lemma set_parameter_TargetBlurring x r :
  set_parameter D parse_double "Target blurring (in mm)"
    (list_ascii_of_string (print_double x)) r
  = SetTargetBlurring D x r.
Proof.
  change (set_parameter D parse_double "Target blurring (in mm)"
            (list_ascii_of_string (print_double x)) r)
    with (match parse_double (list_ascii_of_string (print_double x)) with
          | Some d => SetTargetBlurring D d r
          | None => r
          end).
  by rewrite parse_print.
Qed.

Lemma set_parameter_TargetResolution x r :
  set_parameter D parse_double "Target resolution (in mm)"
    (list_ascii_of_string (print_double x)) r
  = SetTargetResolution D x r.
Proof.
  change (set_parameter D parse_double "Target resolution (in mm)"
            (list_ascii_of_string (print_double x)) r)
    with (match parse_double (list_ascii_of_string (print_double x)) with
          | Some d => SetTargetResolution D d r
          | None => r
          end).
  by rewrite parse_print.
Qed.

Lemma set_parameter_TargetPadding x r :
  set_parameter D parse_double "Target padding value"
    (list_ascii_of_string (print_int x)) r
  = SetTargetPadding D x r.
Proof.
  change (set_parameter D parse_double "Target padding value"
            (list_ascii_of_string (print_int x)) r)
    with (match parse_int (list_ascii_of_string (print_int x)) with
          | Some z => SetTargetPadding D z r
          | None => r
          end).
  by rewrite parse_print_int.
Qed.

Lemma set_parameter_SourceBlurring x r :
  set_parameter D parse_double "Source blurring (in mm)"
    (list_ascii_of_string (print_double x)) r
  = SetSourceBlurring D x r.
Proof.
  change (set_parameter D parse_double "Source blurring (in mm)"
            (list_ascii_of_string (print_double x)) r)
    with (match parse_double (list_ascii_of_string (print_double x)) with
          | Some d => SetSourceBlurring D d r
          | None => r
          end).
  by rewrite parse_print.
Qed.

Lemma set_parameter_SourceResolution x r :
  set_parameter D parse_double "Source resolution (in mm)"
    (list_ascii_of_string (print_double x)) r
  = SetSourceResolution D x r.
Proof.
  change (set_parameter D parse_double "Source resolution (in mm)"
            (list_ascii_of_string (print_double x)) r)
    with (match parse_double (list_ascii_of_string (print_double x)) with
          | Some d => SetSourceResolution D d r
          | None => r
          end).
  by rewrite parse_print.
Qed.

Lemma set_parameter_SourcePadding x r :
  set_parameter D parse_double "Source padding value"
    (list_ascii_of_string (print_int x)) r
  = SetSourcePadding D x r.
Proof.
  change (set_parameter D parse_double "Source padding value"
            (list_ascii_of_string (print_int x)) r)
    with (match parse_int (list_ascii_of_string (print_int x)) with
          | Some z => SetSourcePadding D z r
          | None => r
          end).
  by rewrite parse_print_int.
Qed.

Lemma set_parameter_NumberOfLevels x r :
  set_parameter D parse_double "No. of resolution levels"
    (list_ascii_of_string (print_int x)) r
  = SetNumberOfLevels D x r.
Proof.
  change (set_parameter D parse_double "No. of resolution levels"
            (list_ascii_of_string (print_int x)) r)
    with (match parse_int (list_ascii_of_string (print_int x)) with
          | Some z => SetNumberOfLevels D z r
          | None => r
          end).
  by rewrite parse_print_int.
Qed.

Lemma set_parameter_NumberOfIterations x r :
  set_parameter D parse_double "No. of iterations"
    (list_ascii_of_string (print_int x)) r
  = SetNumberOfIterations D x r.
Proof.
  change (set_parameter D parse_double "No. of iterations"
            (list_ascii_of_string (print_int x)) r)
    with (match parse_int (list_ascii_of_string (print_int x)) with
          | Some z => SetNumberOfIterations D z r
          | None => r
          end).
  by rewrite parse_print_int.
Qed.

Lemma set_parameter_StepSize x r :
  set_parameter D parse_double "Step size"
    (list_ascii_of_string (print_double x)) r
  = SetStepSize D x r.
Proof.
  change (set_parameter D parse_double "Step size"
            (list_ascii_of_string (print_double x)) r)
    with (match parse_double (list_ascii_of_string (print_double x)) with
          | Some d => SetStepSize D d r
          | None => r
          end).
  by rewrite parse_print.
Qed.

Lemma set_parameter_Epsilon x r :
  set_parameter D parse_double "Epsilon"
    (list_ascii_of_string (print_double x)) r
  = SetEpsilon D x r.
Proof.
  change (set_parameter D parse_double "Epsilon"
            (list_ascii_of_string (print_double x)) r)
    with (match parse_double (list_ascii_of_string (print_double x)) with
          | Some d => SetEpsilon D d r
          | None => r
          end).
  by rewrite parse_print.
Qed.

Lemma set_parameter_ReductionFactor x r :
  set_parameter D parse_double "Reduction factor"
    (list_ascii_of_string (print_double x)) r
  = SetReductionFactor D x r.
Proof.
  change (set_parameter D parse_double "Reduction factor"
            (list_ascii_of_string (print_double x)) r)
    with (match parse_double (list_ascii_of_string (print_double x)) with
          | Some d => SetReductionFactor D d r
          | None => r
          end).
  by rewrite parse_print.
Qed.

Lemma set_parameter_Smoothing x r :
  set_parameter D parse_double "Smoothing"
    (list_ascii_of_string (print_double x)) r
  = SetSmoothing D x r.
Proof.
  change (set_parameter D parse_double "Smoothing"
            (list_ascii_of_string (print_double x)) r)
    with (match parse_double (list_ascii_of_string (print_double x)) with
          | Some d => SetSmoothing D d r
          | None => r
          end).
  by rewrite parse_print.
Qed.

Lemma set_parameter_InterpolationMode x r :
  set_parameter D parse_double "Interpolation mode"
    (list_ascii_of_string (print_int x)) r
  = SetInterpolationMode D x r.
Proof.
  change (set_parameter D parse_double "Interpolation mode"
            (list_ascii_of_string (print_int x)) r)
    with (match parse_int (list_ascii_of_string (print_int x)) with
          | Some z => SetInterpolationMode D z r
          | None => r
          end).
  by rewrite parse_print_int.
Qed.

End set_parameter.

(** Relative to a text form of the [double]s that parses back to the number
    it was printed from, [Read] on the file that [Write] has written for a
    set of parameters answers that set, whatever the parameters held
    before.  The set is valid when each of its values can stand on a line.
    Neither the sources nor the design document fix the text form of a
    [double]; with one that drops digits the eight [double] fields do not
    come back, so this lemma does not settle the round trip of the design
    document (C6). *)
Theorem Read_Write_round_trip (D : Type) (print_double : D → string)
    (parse_double : list ascii → option D)
    (r r0 : RegistrationParameters D) (fuel : nat) :
  (∀ d, parse_double (list_ascii_of_string (print_double d)) = Some d) →
  valid_parameters D print_double r = true →
  (20 ≤ fuel)%nat →
  Read D parse_double fuel (Write D print_double r) r0 = Some (ReadDone D r).
Proof.
  intros Hcodec Hvalid Hfuel.
  unfold valid_parameters in Hvalid. rewrite !andb_true_iff in Hvalid.
  destruct Hvalid as (((((((((((((V1 & V2) & V3) & V4) & V5) & V6) & V7) & V8)
    & V9) & V10) & V11) & V12) & V13) & V14).
  replace fuel with (20 + (fuel - 20))%nat by lia.
  generalize (fuel - 20)%nat. clear fuel Hfuel. intros fuel.
  unfold Read, stream_of, Write. rewrite text_app, !text_cons.
  cbn [Nat.add].
  rewrite Read_lines_after; [|apply header_passed|done|done|simpl; lia].
  do 13 (rewrite Read_lines_parameter by done).
  change (text []) with (@nil ascii). rewrite Read_lines_end.
  rewrite !(set_parameter_Mode D parse_double),
    (set_parameter_TargetBlurring D print_double parse_double Hcodec),
    (set_parameter_TargetResolution D print_double parse_double Hcodec),
    (set_parameter_TargetPadding D parse_double),
    (set_parameter_SourceBlurring D print_double parse_double Hcodec),
    (set_parameter_SourceResolution D print_double parse_double Hcodec),
    (set_parameter_SourcePadding D parse_double),
    (set_parameter_NumberOfLevels D parse_double),
    (set_parameter_NumberOfIterations D parse_double),
    (set_parameter_StepSize D print_double parse_double Hcodec),
    (set_parameter_Epsilon D print_double parse_double Hcodec),
    (set_parameter_ReductionFactor D print_double parse_double Hcodec),
    (set_parameter_Smoothing D print_double parse_double Hcodec),
    (set_parameter_InterpolationMode D parse_double).
  by destruct r.
Qed.

(** The round trip with integers in decimal as the text form of every
    number. *)
Lemma Read_Write_round_trip_witness :
  let r := mkParameters Z _CompositiveDemons 2 1 (-1) 2 1 0 3 50 1 1 2 4 1 in
  let r0 := mkParameters Z _AdditiveDemons 0 0 0 0 0 0 0 0 0 0 0 0 0 in
  Read Z parse_int 20 (Write Z print_int r) r0 = Some (ReadDone Z r).
Proof.
  apply (Read_Write_round_trip Z print_int parse_int).
  - exact parse_print_int.
  - reflexivity.
  - lia.
Defined.

Example Write_run :
  Write Z print_int
    (mkParameters Z _CompositiveDemons 2 1 (-1) 2 1 0 3 50 1 1 2 4 1)
  = [ "#"; "# Registration parameters"; "#"; EmptyString;
      "Demons mode = 1";
      "Target blurring (in mm) = 2";
      "Target resolution (in mm) = 1";
      "Target padding value = -1";
      "Source blurring (in mm) = 2";
      "Source resolution (in mm) = 1";
      "Source padding value = 0";
      "No. of resolution levels = 3";
      "No. of iterations = 50";
      "Step size = 1";
      "Epsilon = 1";
      "Reduction factor = 2";
      "Smoothing = 4";
      "Interpolation mode = 1" ]%string.
Proof. reflexivity. Qed.

Example Read_run :
  Read Z parse_int 20
    [ "# written by hand"; "Epsilon =      7"; EmptyString; "Demons mode = 1" ]%string
    (mkParameters Z _AdditiveDemons 0 0 0 0 0 0 0 0 0 0 0 0 0)
  = Some (ReadDone Z
            (mkParameters Z _CompositiveDemons 0 0 0 0 0 0 0 0 0 7 0 0 0)).
Proof. reflexivity. Qed.

Example Read_malformed :
  Read Z parse_int 20 [ "Epsilon = 7"; "Demons mode 1" ]%string
    (mkParameters Z _AdditiveDemons 0 0 0 0 0 0 0 0 0 0 0 0 0)
  = Some (ReadExited Z 1 no_valid_line).
Proof. reflexivity. Qed.

(* ===================================================================== *)
(** * Further properties *)

(** ** read_line: what a call can answer *)

Lemma extract_stored room cs :
  (length (extract room cs).1.1.1 ≤ room)%nat.
Proof.
  revert cs. induction room as [|room IH]; intros [|c cs]; simpl; try lia.
  - destruct (Ascii.eqb c LF); simpl; lia.
  - destruct (Ascii.eqb c LF); simpl; [lia|].
    specialize (IH cs). destruct (extract room cs) as [[[stored n] rest] bits].
    simpl in *. lia.
Qed.

(** [getline] never stores more than the 254 characters the buffer has room
    for besides the terminator. *)
Lemma getline_stored in_ : (length (getline in_ 255).1 ≤ 254)%nat.
Proof.
  unfold getline. destruct (good in_); [|simpl; lia].
  pose proof (extract_stored (255 - 1) (pending in_)) as H.
  destruct (extract (255 - 1) (pending in_)) as [[[stored n] rest] [e f]].
  simpl in *. lia.
Qed.

Lemma strlen_length buffer : (strlen buffer ≤ length buffer)%nat.
Proof.
  induction buffer as [|c buffer IH]; simpl; [lia|].
  destruct (Ascii.eqb c NUL); simpl; lia.
Qed.

Lemma strlen_drop buffer p :
  (p ≤ strlen buffer)%nat → strlen (drop p buffer) = (strlen buffer - p)%nat.
Proof.
  revert buffer. induction p as [|p IH]; intros buffer Hp.
  - rewrite drop_0. lia.
  - destruct buffer as [|c buffer]; simpl in *; [lia|].
    destruct (Ascii.eqb c NUL); [lia|]. apply IH. lia.
Qed.

(** The second loop stops inside the string or at its terminator. *)
Lemma skip_blanks_bound rest p : (skip_blanks rest p ≤ p + strlen rest)%nat.
Proof.
  revert p. induction rest as [|c rest IH]; intros p; simpl; [lia|].
  destruct (Ascii.eqb_spec c " ") as [->|]; simpl.
  { specialize (IH (S p)). lia. }
  destruct (Ascii.eqb_spec c TAB) as [->|]; simpl.
  { specialize (IH (S p)). lia. }
  lia.
Qed.

Lemma skip_blanks_from rest p : (p ≤ skip_blanks rest p)%nat.
Proof.
  revert p. induction rest as [|c rest IH]; intros p; simpl; [lia|].
  destruct (Ascii.eqb c " " || Ascii.eqb c TAB); [|lia].
  specialize (IH (S p)). lia.
Qed.

(** X1.  Whenever [read_line] returns, either it returns 0, the stream is
    at the end of the input and the pointer is the caller's; or it returns
    the length of the string in the buffer, between 1 and 254, and the
    pointer lies after the first character of that string and not beyond its
    terminator. *)
Theorem read_line_returned (fuel : nat) (in_ in_' : istream)
    (buffer1 buffer1' : list ascii) (buffer2 buffer2' : option nat) (n : Z) :
  read_line fuel in_ buffer1 buffer2 = Some (Returned n buffer1' buffer2' in_') →
  (n = 0 ∧ eof in_' = true ∧ buffer2' = buffer2) ∨
  (1 ≤ n ≤ 254 ∧ n = Z.of_nat (strlen buffer1') ∧
   ∃ p, buffer2' = Some p ∧ (1 ≤ p ≤ strlen buffer1')%nat).
Proof.
  revert in_ buffer1. induction fuel as [|fuel IH]; intros in_ b1; [done|].
  cbn [read_line]. destruct (eof in_) eqn:He.
  { intros [= <- <- <- <-]. left. done. }
  pose proof (getline_stored in_) as Hlen.
  destruct (getline in_ 255) as [line in1]. simpl in Hlen.
  destruct (skipped line) eqn:Hs; [apply IH|].
  destruct (strchr line "=") as [e|] eqn:Hchr; [|done].
  intros [= <- <- <- <-]. right.
  apply strchr_first_equals in Hchr as (He' & _).
  pose proof (strlen_length line).
  pose proof (skip_blanks_bound (drop (S e) line) (S e)) as Hb.
  pose proof (skip_blanks_from (drop (S e) line) (S e)) as Hf.
  rewrite strlen_drop in Hb by lia.
  split; [lia|]. split; [done|]. eexists. split; [done|]. lia.
Qed.

Lemma read_line_returned_witness :
  (14 = 0 ∧ eof (stream_of []) = true ∧ Some 11%nat = None) ∨
  (1 ≤ 14 ≤ 254 ∧
   14 = Z.of_nat (strlen (list_ascii_of_string "Epsilon =  0.5")) ∧
   ∃ p, Some 11%nat = Some p ∧
        (1 ≤ p ≤ strlen (list_ascii_of_string "Epsilon =  0.5"))%nat).
Proof.
  apply (read_line_returned 3
           (stream_of ["# a comment"%string; "Epsilon =  0.5"%string])
           (stream_of []) [] (list_ascii_of_string "Epsilon =  0.5")
           None (Some 11%nat) 14).
  reflexivity.
Defined.

(** ** read_line: files whose lines fit the buffer, and files with a line
    that does not *)

(** X2.  On a good stream over a text whose lines all fit the buffer, the
    last one ended by a newline or not, [read_line] ends: one round of its
    first loop for each line and two more are enough for an answer. *)
Theorem read_line_ends (lines : list string) (last_line buffer1 : list ascii)
    (buffer2 : option nat) :
  Forall (λ s, fits (list_ascii_of_string s)) lines → fits last_line →
  ∃ answer,
    read_line (length lines + 2)
      (mkStream (text lines ++ last_line) false false) buffer1 buffer2
    = Some answer.
Proof.
  intros Hlines [Hn Hlen]. revert buffer1.
  induction Hlines as [|s lines [Hsn Hslen] _ IH]; intros b1.
  - change (text [] ++ last_line) with last_line.
    change (length [] + 2)%nat with 2%nat.
    destruct (skipped last_line) eqn:Hs.
    + apply skipped_passed_over in Hs.
      rewrite (read_line_pass 1 _ last_line
                 (mkStream [] true (length last_line =? 0)%nat));
        [|done|by apply getline_last|done].
      eexists. reflexivity.
    + apply skipped_not_passed_over in Hs.
      rewrite (read_line_accept 1 _ last_line
                 (mkStream [] true (length last_line =? 0)%nat));
        [|done|by apply getline_last|done].
      destruct (strchr last_line "="); eexists; reflexivity.
  - rewrite text_cons, <- app_assoc, <- app_comm_cons.
    change (length (s :: lines) + 2)%nat with (S (length lines + 2)).
    destruct (skipped (list_ascii_of_string s)) eqn:Hs.
    + apply skipped_passed_over in Hs.
      rewrite read_line_passed_line by done. apply IH.
    + apply skipped_not_passed_over in Hs.
      rewrite (read_line_accept _ _ (list_ascii_of_string s)
                 (mkStream (text lines ++ last_line) false false));
        [|done|by apply getline_line|done].
      destruct (strchr (list_ascii_of_string s) "="); eexists; reflexivity.
Qed.

Lemma read_line_ends_witness :
  ∃ answer,
    read_line (length ["# a comment"%string; "Epsilon = 1"%string] + 2)
      (mkStream (text ["# a comment"%string; "Epsilon = 1"%string] ++
                 list_ascii_of_string "Smoothing = 4") false false)
      [] None
    = Some answer.
Proof.
  apply (read_line_ends ["# a comment"%string; "Epsilon = 1"%string]
           (list_ascii_of_string "Smoothing = 4") [] None).
  - repeat (apply Forall_cons_2; [|]); [..|apply Forall_nil_2];
      (split; [rewrite list_elem_of_In; simpl; intuition discriminate
              |simpl; lia]).
  - split; [rewrite list_elem_of_In; simpl; intuition discriminate|simpl; lia].
Defined.

(** X3.  A stream whose [failbit] is set while [eofbit] is not, as after
    an [open] that failed, never lets [read_line] answer: every [getline]
    leaves the empty string, the stream stays as it is, and the first loop
    goes on. *)
Theorem read_line_on_failed_stream (fuel : nat) (in_ : istream)
    (buffer1 : list ascii) (buffer2 : option nat) :
  eofbit in_ = false → failbit in_ = true →
  getline in_ 255 = ([], in_) ∧ read_line fuel in_ buffer1 buffer2 = None.
Proof.
  intros He Hf. split.
  - unfold getline, good. rewrite He, Hf. simpl. destruct in_; simpl in *.
    by subst.
  - by apply read_line_failed.
Qed.

Lemma read_line_on_failed_stream_witness :
  getline (mkStream (list_ascii_of_string "Epsilon = 1") false true) 255
  = ([], mkStream (list_ascii_of_string "Epsilon = 1") false true) ∧
  read_line 1000 (mkStream (list_ascii_of_string "Epsilon = 1") false true)
    [] None = None.
Proof.
  apply (read_line_on_failed_stream 1000
           (mkStream (list_ascii_of_string "Epsilon = 1") false true) [] None);
    reflexivity.
Defined.

(** X4.  A line of more than 254 characters that [read_line] accepts is
    returned cut to its first 254 characters; the call leaves [failbit] set,
    and no later call on the stream answers. *)
Theorem read_line_long_line (fuel : nat) (line rest buffer1 : list ascii)
    (c : ascii) (e : nat) (buffer2 : option nat) :
  LF ∉ line → length line = 254%nat → c ≠ LF →
  ¬ passed_over line → first_equals line e →
  ∃ p,
    read_line (S fuel) (mkStream (line ++ c :: rest) false false)
      buffer1 buffer2
    = Some (Returned (Z.of_nat (strlen line)) line (Some p)
              (mkStream (c :: rest) false true)) ∧
    ∀ fuel' buffer1' buffer2',
      read_line fuel' (mkStream (c :: rest) false true) buffer1' buffer2'
      = None.
Proof.
  intros Hn Hlen Hc Hp Hfirst.
  rewrite (read_line_accept fuel _ line (mkStream (c :: rest) false true));
    [|done|by apply getline_long|done].
  apply strchr_first_equals in Hfirst. rewrite Hfirst.
  eexists. split; [done|]. intros fuel' b1' b2'. by apply read_line_failed.
Qed.

(** X5.  A non-empty line of spaces and tabs only is not passed over as an
    empty line is: it holds no '=', and the call ends the process. *)
Theorem read_line_blank_line (fuel : nat) (line rest buffer1 : list ascii)
    (buffer2 : option nat) :
  line ≠ [] → Forall blank line → (length line ≤ 254)%nat →
  read_line (S fuel) (mkStream (line ++ LF :: rest) false false)
    buffer1 buffer2
  = Some (Exited 1 no_valid_line).
Proof.
  intros Hne Hblank Hlen.
  assert (∀ c, c ∈ line → blank c) as Hall by (by apply Forall_forall).
  assert (∀ c, ¬ blank c → c ∉ line) as Hnot by (intros c Hc Hin; auto).
  rewrite (read_line_accept fuel _ line (mkStream rest false false)).
  - rewrite strchr_absent; [done|]. apply Hnot. intros [?|?]; done.
  - done.
  - apply getline_line; [|done]. apply Hnot. intros [?|?]; done.
  - destruct line as [|c line]; [done|].
    assert (blank c) as [-> | ->] by (apply Hall; left);
      apply skipped_not_passed_over; reflexivity.
Qed.

Lemma read_line_blank_line_witness :
  read_line 1 (mkStream ([" "%char; TAB; " "%char] ++
                         LF :: list_ascii_of_string "Epsilon = 1")
                 false false) [] None
  = Some (Exited 1 no_valid_line).
Proof.
  apply (read_line_blank_line 0 [" "%char; TAB; " "%char]).
  - discriminate.
  - repeat (apply Forall_cons_2; [first [by left | by right]|]).
    apply Forall_nil_2.
  - simpl. lia.
Defined.



Lemma read_line_long_line_witness :
  let line := list_ascii_of_string "a=" ++ repeat "x"%char 252 in
  ∃ p,
    read_line 1 (mkStream (line ++ "y"%char :: [LF]) false false) [] None
    = Some (Returned (Z.of_nat (strlen line)) line (Some p)
              (mkStream ("y"%char :: [LF]) false true)) ∧
    ∀ fuel' buffer1' buffer2',
      read_line fuel' (mkStream ("y"%char :: [LF]) false true)
        buffer1' buffer2'
      = None.
Proof.
  apply (read_line_long_line 0
           (list_ascii_of_string "a=" ++ repeat "x"%char 252) [LF] []
           "y"%char 1 None).
  - apply (forallb_elem_of_false (λ c, negb (Ascii.eqb c LF)));
      by vm_compute.
  - by vm_compute.
  - discriminate.
  - apply skipped_not_passed_over. by vm_compute.
  - apply strchr_first_equals. by vm_compute.
Defined.

Lemma read_line_long_comment_witness :
  read_line 1000
    (mkStream (("#"%char :: repeat "-"%char 253) ++
               "-"%char :: LF :: list_ascii_of_string "Epsilon = 1")
       false false) [] None
  = None.
Proof.
  apply (read_line_long_comment 1000 ("#"%char :: repeat "-"%char 253)
           "-"%char (LF :: list_ascii_of_string "Epsilon = 1") [] None).
  - apply (forallb_elem_of_false (λ c, negb (Ascii.eqb c LF)));
      by vm_compute.
  - by vm_compute.
  - discriminate.
  - reflexivity.
Defined.

(** ** irtkCalculateNumberOfBins: widths, bin indices and the array *)

Lemma ceil_div_1 a : ceil_div a 1 = a.
Proof. unfold ceil_div. rewrite Z.div_1_r. lia. Qed.

(** With enough rounds for its loop the choice of the bins answers, with a
    width of at least 1. *)
Lemma choose_bins_answers fuel maxbin min max :
  (Z.to_nat (max - min + 1) ≤ fuel)%nat → (1 ≤ fuel)%nat →
  ∃ nbins width,
    choose_bins fuel maxbin min max = Some (nbins, width) ∧ 1 ≤ width ∧
    (0 < maxbin → ceiling_of (max - min + 1) width nbins ∧ nbins ≤ maxbin) ∧
    (maxbin ≤ 0 → nbins = max - min + 1 ∧ width = 1).
Proof.
  intros Hfuel H1. unfold choose_bins.
  destruct (Z.ltb_spec 0 maxbin) as [Hpos|Hnpos].
  - destruct (widen_spec fuel (max - min + 1) maxbin 1)
      as (width & E & Hge & Hfit & _); [done|lia|lia|].
    rewrite E. simpl. eexists _, _. split; [done|]. split; [lia|].
    split; [|intros; lia]. intros _. split; [|done].
    apply ceil_div_ceiling. lia.
  - eexists _, _. split; [done|]. split; [lia|]. split; [intros; lia|done].
Qed.

Lemma rescale_1 image : wf_image image → rescale 1 image = image.
Proof.
  intros Hwf. destruct image as [X Y Z_ T vox].
  unfold rescale. f_equal.
  change (for_loop _ _ _ _) with (voxels (rescale 1 (mkImage X Y Z_ T vox))).
  rewrite rescale_voxels by done. simpl.
  rewrite <- (list_fmap_id vox) at 2. apply list_fmap_ext.
  intros i v _. unfold trunc_div. rewrite Z.quot_1_r. by destruct (0 <? v).
Qed.

(** X8.  No binning takes place when [maxbin] is not positive or is at least
    [max - min + 1], which covers [max < min]: the function answers
    [max - min + 1], be it zero or negative, and leaves the image as it
    is. *)
Theorem irtkCalculateNumberOfBins_no_binning (fuel : nat)
    (image : irtkGreyImage) (maxbin min max : Z) :
  wf_image image → maxbin ≤ 0 ∨ max - min + 1 ≤ maxbin →
  irtkCalculateNumberOfBins (S fuel) image maxbin min max
  = Some (max - min + 1, image).
Proof.
  intros Hwf Hcase. unfold irtkCalculateNumberOfBins, choose_bins.
  destruct (Z.ltb_spec 0 maxbin) as [Hpos|Hnpos].
  - cbn [widen]. rewrite ceil_div_1.
    destruct (Z.ltb_spec maxbin (max - min + 1)); [lia|].
    simpl. by rewrite ceil_div_1, rescale_1.
  - simpl. by rewrite rescale_1.
Qed.

Lemma irtkCalculateNumberOfBins_no_binning_witness :
  irtkCalculateNumberOfBins 1 (mkImage 2 1 1 1 [7; -3]) 64 9 5
  = Some (5 - 9 + 1, mkImage 2 1 1 1 [7; -3]).
Proof.
  apply (irtkCalculateNumberOfBins_no_binning 0 (mkImage 2 1 1 1 [7; -3])
           64 9 5).
  - unfold wf_image, GetNumberOfVoxels. simpl. lia.
  - right. lia.
Defined.

(** X9.  When [min] is not positive and no voxel is above [max], every
    voxel of the rescaled image is below the number of bins the function
    answers: the rescaled intensities are bin indices. *)
Theorem irtkCalculateNumberOfBins_bin_index (fuel : nat)
    (image : irtkGreyImage) (maxbin min max : Z) :
  wf_image image → min ≤ 0 → min ≤ max →
  Forall (λ v, v ≤ max) (voxels image) →
  (Z.to_nat (max - min + 1) ≤ fuel)%nat →
  ∃ nbins image',
    irtkCalculateNumberOfBins fuel image maxbin min max = Some (nbins, image') ∧
    Forall (λ v, v < nbins) (voxels image').
Proof.
  intros Hwf Hmin Hle Hall Hfuel. unfold irtkCalculateNumberOfBins.
  destruct (choose_bins_answers fuel maxbin min max)
    as (nbins & width & E & Hw & Hpos & Hnpos); [done|lia|].
  rewrite E. simpl. eexists _, _. split; [done|].
  rewrite rescale_voxels by done. apply Forall_fmap.
  eapply Forall_impl; [exact Hall|]. intros v Hv. simpl in Hv |- *.
  assert (1 ≤ nbins ∧ max + 1 ≤ width * nbins) as [Hn1 Hn2].
  { destruct (Z_lt_le_dec 0 maxbin) as [Hp|Hp].
    - destruct (Hpos Hp) as [[Hc1 Hc2] _]. nia.
    - destruct (Hnpos Hp) as [-> ->]. lia. }
  destruct (Z.ltb_spec 0 v) as [Hv0|Hv0]; [|lia].
  rewrite trunc_div_floor by lia.
  apply Z.div_lt_upper_bound; lia.
Qed.

Lemma irtkCalculateNumberOfBins_bin_index_witness :
  ∃ nbins image',
    irtkCalculateNumberOfBins 10 (mkImage 2 1 1 1 [7; -3]) 4 0 9
    = Some (nbins, image') ∧
    Forall (λ v, v < nbins) (voxels image').
Proof.
  apply (irtkCalculateNumberOfBins_bin_index 10 (mkImage 2 1 1 1 [7; -3]) 4 0 9).
  - unfold wf_image, GetNumberOfVoxels. simpl. lia.
  - lia.
  - lia.
  - repeat constructor; lia.
  - simpl. lia.
Defined.

(** With a positive [min] the division by the width does not bring the
    intensities under the number of bins. *)
Example irtkCalculateNumberOfBins_above_bins :
  irtkCalculateNumberOfBins 10 (mkImage 1 1 1 1 [109]) 4 100 109
  = Some (4, mkImage 1 1 1 1 [36]).
Proof. reflexivity. Qed.

(** X10.  The rescaling keeps the order of the intensities: of two voxels
    the one that was not above the other is not above it afterwards. *)
Theorem irtkCalculateNumberOfBins_order (fuel : nat) (image : irtkGreyImage)
    (maxbin min max : Z) (i j : nat) (v w : Z) :
  wf_image image → (Z.to_nat (max - min + 1) ≤ fuel)%nat → (1 ≤ fuel)%nat →
  voxels image !! i = Some v → voxels image !! j = Some w → v ≤ w →
  ∃ nbins image' v' w',
    irtkCalculateNumberOfBins fuel image maxbin min max = Some (nbins, image') ∧
    voxels image' !! i = Some v' ∧ voxels image' !! j = Some w' ∧ v' ≤ w'.
Proof.
  intros Hwf Hfuel H1 Hv Hw Hle. unfold irtkCalculateNumberOfBins.
  destruct (choose_bins_answers fuel maxbin min max)
    as (nbins & width & E & Hwd & _); [done|done|].
  rewrite E. simpl. eexists _, _, _, _. split; [done|].
  rewrite rescale_voxels by done. rewrite !list_lookup_fmap, Hv, Hw. simpl.
  split; [done|]. split; [done|].
  destruct (Z.ltb_spec 0 v), (Z.ltb_spec 0 w); try lia.
  - rewrite !trunc_div_floor by lia. apply Z.div_le_mono; lia.
  - rewrite trunc_div_floor by lia.
    transitivity 0; [lia|]. apply Z.div_pos; lia.
Qed.

Lemma irtkCalculateNumberOfBins_order_witness :
  ∃ nbins image' v' w',
    irtkCalculateNumberOfBins 10 (mkImage 3 1 1 1 [7; -3; 9]) 4 0 9
    = Some (nbins, image') ∧
    voxels image' !! 0%nat = Some v' ∧ voxels image' !! 2%nat = Some w' ∧
    v' ≤ w'.
Proof.
  apply (irtkCalculateNumberOfBins_order 10 (mkImage 3 1 1 1 [7; -3; 9])
           4 0 9 0 2 7 9).
  - unfold wf_image, GetNumberOfVoxels. simpl. lia.
  - simpl. lia.
  - lia.
  - reflexivity.
  - reflexivity.
  - lia.
Defined.




Example irtkCalculateNumberOfBins_n_run :
  irtkCalculateNumberOfBins_n 10
    [mkImage 1 1 1 1 [7]; mkImage 1 1 1 1 [8]] 4 0 9 1
  = Some (4, [mkImage 1 1 1 1 [2]; mkImage 1 1 1 1 [8]]).
Proof. reflexivity. Qed.

(** ** irtkPadding(image, padding): the distances it leaves *)

(** Every entry of the buffer is the voxel of a position of the image. *)
Lemma VoxelToIndex_surj image n :
  0 ≤ GetX image → 0 ≤ GetY image → 0 ≤ GetZ image →
  0 ≤ n < GetNumberOfVoxels image →
  ∃ i j k t, inside image i j k t ∧ VoxelToIndex image i j k t = n.
Proof.
  unfold GetNumberOfVoxels, inside, VoxelToIndex. intros HX HY HZ Hn.
  assert (0 < GetX image) as HX'.
  { destruct (decide (GetX image = 0)) as [E|]; [rewrite E in Hn|]; lia. }
  assert (0 < GetY image) as HY'.
  { destruct (decide (GetY image = 0)) as [E|]; [rewrite E in Hn|]; lia. }
  assert (0 < GetZ image) as HZ'.
  { destruct (decide (GetZ image = 0)) as [E|]; [rewrite E in Hn|]; lia. }
  set (r1 := n / GetX image). set (r2 := r1 / GetY image).
  exists (n mod GetX image), (r1 mod GetY image), (r2 mod GetZ image),
         (r2 / GetZ image).
  pose proof (Z.mod_pos_bound n _ HX').
  pose proof (Z.mod_pos_bound r1 _ HY').
  pose proof (Z.mod_pos_bound r2 _ HZ').
  pose proof (Z.div_mod n (GetX image) ltac:(lia)) as E1. fold r1 in E1.
  pose proof (Z.div_mod r1 (GetY image) ltac:(lia)) as E2. fold r2 in E2.
  pose proof (Z.div_mod r2 (GetZ image) ltac:(lia)) as E3.
  assert (0 ≤ r1 < GetY image * GetZ image * GetT image) as Hr1.
  { split; [apply Z.div_pos; lia|]. apply Z.div_lt_upper_bound; [lia|]. nia. }
  assert (0 ≤ r2 < GetZ image * GetT image) as Hr2.
  { split; [apply Z.div_pos; lia|]. apply Z.div_lt_upper_bound; [lia|]. nia. }
  assert (0 ≤ r2 / GetZ image < GetT image) as Hr3.
  { split; [apply Z.div_pos; lia|]. apply Z.div_lt_upper_bound; [lia|]. nia. }
  repeat split; lia.
Qed.

(** Two images of the same extents that agree at every position are the
    same image. *)
Lemma image_ext image image' :
  wf_image image → wf_image image' → same_dims image image' →
  (∀ i j k t, inside image i j k t → Get image' i j k t = Get image i j k t) →
  image' = image.
Proof.
  intros (HX & HY & HZ & HT & Hlen) (_ & _ & _ & _ & Hlen') Hdims Hget.
  assert (GetNumberOfVoxels image' = GetNumberOfVoxels image) as HN.
  { unfold GetNumberOfVoxels. by destruct Hdims as (-> & -> & -> & ->). }
  assert (voxels image' = voxels image) as Hv.
  { apply list_eq. intros n.
    destruct (decide (n < length (voxels image))%nat) as [Hlt|Hge].
    - destruct (VoxelToIndex_surj image (Z.of_nat n)) as (i & j & k & t & Hin & E);
        [done|done|done|lia|].
      specialize (Hget i j k t Hin). unfold Get in Hget.
      assert (VoxelToIndex image' i j k t = VoxelToIndex image i j k t) as E'.
      { unfold VoxelToIndex. by destruct Hdims as (-> & -> & -> & _). }
      apply (same_dims_inside image image') in Hin as Hin'; [|done].
      apply insideb_inside in Hin, Hin'. rewrite Hin, Hin', E', E, Nat2Z.id in Hget.
      destruct (lookup_lt_is_Some_2 (voxels image) n) as [v Ev]; [done|].
      destruct (lookup_lt_is_Some_2 (voxels image') n) as [v' Ev']; [lia|].
      rewrite Ev, Ev' in *. simpl in Hget. by subst.
    - rewrite !lookup_ge_None_2; [done|lia|lia]. }
  destruct image, image', Hdims as (? & ? & ? & ?). simpl in *. by subst.
Qed.

(** A voxel that is -1 begins a run of -1 that ends somewhere in its row. *)
Lemma ends_run_exists image p j k t :
  p < GetX image → Get image p j k t = -1 → ∃ l, ends_run image j k t p l.
Proof.
  intros Hp E.
  destruct (scan_run_spec (S (Z.to_nat (GetX image - p))) image j k t p)
    as (l & _ & Hl & Hrun & Hend); [lia|lia|].
  exists l. split; [|done].
  destruct (decide (l = p)) as [->|]; [|lia]. exfalso. by apply Hend.
Qed.

(** What the function leaves at one position. *)
Lemma distances_at image image' x j k t :
  distances image (λ _ _ _ _, True) image' → inside image x j k t →
  (Get image x j k t ≠ -1 ∧ Get image' x j k t = Get image x j k t) ∨
  (Get image x j k t = -1 ∧
   ∃ l, ends_run image j k t x l ∧
        Get image' x j k t = irtkGreyPixel (- (l - x))).
Proof.
  intros (_ & _ & H) Hin. destruct (H x j k t Hin) as [_ Hv].
  destruct (Hv I) as [Hkeep Hrun].
  destruct (decide (Get image x j k t = -1)) as [E|N]; [right|by left; auto].
  split; [done|].
  destruct (ends_run_exists image x j k t) as [l Hl];
    [unfold inside in Hin; lia|done|].
  exists l. split; [done|]. by apply Hrun.
Qed.

(** Counting down by one commutes with the conversion to a pixel. *)
Lemma irtkGreyPixel_pred v :
  irtkGreyPixel (v - 1) = irtkGreyPixel (irtkGreyPixel v - 1).
Proof.
  unfold irtkGreyPixel.
  replace (v - 1 + 32768) with (v + 32768 - 1) by lia.
  replace ((v + 32768) mod 65536 - 32768 - 1 + 32768)
    with ((v + 32768) mod 65536 - 1) by lia.
  by rewrite Zminus_mod_idemp_l.
Qed.

(** The distance next to one stored as -1 is not stored as -1. *)
Lemma irtkGreyPixel_next v : irtkGreyPixel v = -1 → irtkGreyPixel (v + 1) ≠ -1.
Proof.
  unfold irtkGreyPixel. intros E.
  pose proof (Z.div_mod (v + 32768) 65536 ltac:(lia)).
  pose proof (Z.div_mod (v + 1 + 32768) 65536 ltac:(lia)).
  pose proof (Z.mod_pos_bound (v + 1 + 32768) 65536 ltac:(lia)).
  lia.
Qed.

(** X12.  [irtkPadding(image, padding)] is idempotent: called on the image
    it has left, it leaves that image as it is.  That holds for rows of any
    length: where a long run has made a stored distance wrap to -1, the
    voxel after it holds 0. *)
Theorem irtkPadding_idempotent (fuel : nat) (image : irtkGreyImage)
    (padding : Z) :
  wf_image image → (Z.to_nat (GetX image) < fuel)%nat →
  ∃ image', irtkPadding fuel image padding = Some image' ∧
            irtkPadding fuel image' padding = Some image'.
Proof.
  intros Hwf Hfuel.
  destruct (irtkPadding_distances fuel image padding Hwf Hfuel)
    as (image' & E & Hd).
  exists image'. split; [done|].
  pose proof Hd as (Hwf' & Hdims & _). pose proof Hdims as (HX & _).
  destruct (irtkPadding_distances fuel image' padding Hwf')
    as (image'' & E' & Hd'); [lia|].
  rewrite E'. f_equal.
  pose proof Hd' as (Hwf'' & Hdims' & _).
  apply image_ext; [done|done|done|].
  intros x j k t Hin'.
  destruct (distances_at _ _ x j k t Hd' Hin')
    as [[_ ?]|(E1 & l & Hl & ->)]; [done|].
  rewrite E1.
  apply (same_dims_inside image image') in Hin' as Hin; [|done].
  assert (ends_run image' j k t x (x + 1)) as Hone.
  { split; [destruct Hin'; lia|]. split.
    - intros q Hq. by replace q with x by lia.
    - intros Hnext.
      destruct (distances_at _ _ x j k t Hd Hin)
        as [[N Hsame]|(_ & l0 & (Hl0 & Hrun0 & Hend0) & El0)]; [congruence|].
      rewrite E1 in El0. symmetry in El0.
      assert (inside image (x + 1) j k t) as Hin1
        by (unfold inside in *; lia).
      destruct (distances_at _ _ (x + 1) j k t Hd Hin1)
        as [[N ->]|(E2 & l1 & Hl1 & ->)]; [done|].
      assert (x + 1 < l0) as Hl0'.
      { destruct (decide (l0 = x + 1)) as [->|]; [|lia].
        exfalso. apply Hend0; [lia|done]. }
      assert (l1 = l0) as ->.
      { apply (ends_run_unique image j k t (x + 1)); [done|].
        split; [lia|]. split; [|done]. intros q Hq. apply Hrun0. lia. }
      replace (- (l0 - (x + 1))) with (- (l0 - x) + 1) by lia.
      by apply irtkGreyPixel_next. }
  pose proof (ends_run_unique _ _ _ _ _ _ _ Hl Hone) as ->.
  by replace (- (x + 1 - x)) with (-1) by lia.
Qed.

Lemma irtkPadding_idempotent_witness :
  let image := mkImage 4 2 1 1 [5; -1; -1; 3; -1; -1; -1; -7] in
  ∃ image', irtkPadding 5 image 0 = Some image' ∧
            irtkPadding 5 image' 0 = Some image'.
Proof.
  apply (irtkPadding_idempotent 5
           (mkImage 4 2 1 1 [5; -1; -1; 3; -1; -1; -1; -7]) 0).
  - unfold wf_image, GetNumberOfVoxels. simpl. lia.
  - simpl. lia.
Defined.

(** X13.  On an image of at most 32768 voxels along x, so that every
    distance fits a pixel, [irtkPadding(image, padding)] keeps the sign of
    every voxel and raises none: a voxel that is not negative keeps its
    value, a negative one stays negative, and a voxel that was -1 at [i]
    ends between [i - GetX] and -1. *)
Theorem irtkPadding_sign (fuel : nat) (image : irtkGreyImage) (padding : Z) :
  wf_image image → GetX image ≤ 32768 → (Z.to_nat (GetX image) < fuel)%nat →
  ∃ image',
    irtkPadding fuel image padding = Some image' ∧
    ∀ i j k t, inside image i j k t →
      (0 ≤ Get image i j k t → Get image' i j k t = Get image i j k t) ∧
      (Get image i j k t < 0 → Get image' i j k t < 0) ∧
      Get image' i j k t ≤ Get image i j k t ∧
      (Get image i j k t = -1 → i - GetX image ≤ Get image' i j k t).
Proof.
  intros Hwf Hshort Hfuel.
  destruct (irtkPadding_distances fuel image padding Hwf Hfuel)
    as (image' & E & Hd).
  exists image'. split; [done|]. intros i j k t Hin.
  destruct (distances_at _ _ i j k t Hd Hin)
    as [[N ->]|(E1 & l & (Hl & _) & ->)]; [lia|].
  destruct Hin as (Hi & _).
  rewrite irtkGreyPixel_id by lia. lia.
Qed.

Lemma irtkPadding_sign_witness :
  let image := mkImage 4 2 1 1 [5; -1; -1; 3; -1; -1; -1; -7] in
  ∃ image',
    irtkPadding 5 image 0 = Some image' ∧
    ∀ i j k t, inside image i j k t →
      (0 ≤ Get image i j k t → Get image' i j k t = Get image i j k t) ∧
      (Get image i j k t < 0 → Get image' i j k t < 0) ∧
      Get image' i j k t ≤ Get image i j k t ∧
      (Get image i j k t = -1 → i - GetX image ≤ Get image' i j k t).
Proof.
  apply (irtkPadding_sign 5
           (mkImage 4 2 1 1 [5; -1; -1; 3; -1; -1; -1; -7]) 0).
  - unfold wf_image, GetNumberOfVoxels. simpl. lia.
  - simpl. lia.
  - simpl. lia.
Defined.

(** X14.  Along a row the distances count down to the end of the run, as
    16-bit pixels do: a voxel that was -1 becomes one less than its right
    neighbour has become, converted to a pixel (so 32767 next to -32768),
    when that neighbour was -1 too, and stays -1 when it was the last of
    its run. *)
Theorem irtkPadding_countdown (fuel : nat) (image : irtkGreyImage)
    (padding : Z) :
  wf_image image → (Z.to_nat (GetX image) < fuel)%nat →
  ∃ image',
    irtkPadding fuel image padding = Some image' ∧
    ∀ i j k t, inside image i j k t → Get image i j k t = -1 →
      Get image' i j k t =
      if decide (i + 1 < GetX image ∧ Get image (i + 1) j k t = -1)
      then irtkGreyPixel (Get image' (i + 1) j k t - 1) else -1.
Proof.
  intros Hwf Hfuel.
  destruct (irtkPadding_distances fuel image padding Hwf Hfuel)
    as (image' & E & Hd).
  exists image'. split; [done|]. intros i j k t Hin E1.
  destruct (distances_at _ _ i j k t Hd Hin)
    as [[N _]|(_ & l & (Hl & Hrun & Hend) & ->)]; [done|].
  case_decide as Hnext.
  - destruct Hnext as [Hlt Enext].
    assert (i + 1 < l) as Hl'.
    { destruct (decide (l = i + 1)) as [->|]; [|lia]. exfalso. by apply Hend. }
    assert (inside image (i + 1) j k t) as Hin1 by (unfold inside in *; lia).
    destruct (distances_at _ _ (i + 1) j k t Hd Hin1)
      as [[N _]|(_ & l' & Hrun' & ->)]; [done|].
    assert (l' = l) as ->.
    { apply (ends_run_unique image j k t (i + 1)); [done|].
      split; [lia|]. split; [|done]. intros q Hq. apply Hrun. lia. }
    rewrite <- irtkGreyPixel_pred. f_equal. lia.
  - destruct (decide (l = i + 1)) as [->|].
    + by replace (- (i + 1 - i)) with (-1) by lia.
    + exfalso. apply Hnext. split; [lia|]. apply Hrun. lia.
Qed.

Lemma irtkPadding_countdown_witness :
  let image := mkImage 4 2 1 1 [5; -1; -1; 3; -1; -1; -1; -7] in
  ∃ image',
    irtkPadding 5 image 0 = Some image' ∧
    ∀ i j k t, inside image i j k t → Get image i j k t = -1 →
      Get image' i j k t =
      if decide (i + 1 < GetX image ∧ Get image (i + 1) j k t = -1)
      then irtkGreyPixel (Get image' (i + 1) j k t - 1) else -1.
Proof.
  apply (irtkPadding_countdown 5
           (mkImage 4 2 1 1 [5; -1; -1; 3; -1; -1; -1; -7]) 0).
  - unfold wf_image, GetNumberOfVoxels. simpl. lia.
  - simpl. lia.
Defined.

(** ** irtkPadding(image, padding, ffd): calls one after another *)

Lemma irtkPadding_ffd_lattice image padding ffd :
  let ffd' := irtkPadding_ffd image padding ffd in
  (∀ i j k, in_lattice ffd' i j k ↔ in_lattice ffd i j k) ∧
  (∀ image' i j k, control_box image' ffd' i j k = control_box image' ffd i j k).
Proof.
  destruct (padded_all image padding ffd) as (HX & HY & HZ & HL & HB & _).
  cbv zeta. split.
  - intros i j k. unfold in_lattice. by rewrite HX, HY, HZ.
  - intros image' i j k. unfold control_box. by rewrite HL, HB.
Qed.

Lemma irtkPadding_ffd_at image padding ffd i j k :
  FFD.GetStatus (irtkPadding_ffd image padding ffd) i j k
  = status_after image padding ffd i j k.
Proof.
  destruct (padded_all image padding ffd) as (_ & _ & _ & _ & _ & H).
  specialize (H i j k). cbv zeta in H. destruct H as [H1 H2].
  unfold status_after.
  destruct (control_box image ffd i j k) as [[[x1 y1] z1] [[x2 y2] z2]].
  pose proof (box_above_false image padding x1 y1 z1 x2 y2 z2) as Hbox.
  case_decide as Hin; [|apply H2; tauto].
  destruct (box_above image padding x1 y1 z1 x2 y2 z2).
  - apply H2. intros [_ Hb]. by apply Hbox in Hb.
  - apply H1. split; [done|]. by apply Hbox.
Qed.

Lemma box_above_mono image padding padding' x1 y1 z1 x2 y2 z2 :
  padding ≤ padding' →
  box_above image padding x1 y1 z1 x2 y2 z2 = false →
  box_above image padding' x1 y1 z1 x2 y2 z2 = false.
Proof.
  rewrite !box_above_false. unfold box_below. intros Hle H x y z t Ht Hz Hy Hx.
  specialize (H x y z t Ht Hz Hy Hx). lia.
Qed.

(** X15.  Two calls, with whatever images and padding values, leave every
    control point with the status the two calls in the other order leave
    it; and a second call with the same image and padding value changes no
    status. *)
Theorem irtkPadding_ffd_twice (image1 image2 : irtkGreyImage)
    (padding1 padding2 : Z) (ffd : FFD.t) (i j k : Z) :
  FFD.GetStatus
    (irtkPadding_ffd image2 padding2 (irtkPadding_ffd image1 padding1 ffd)) i j k
  = FFD.GetStatus
      (irtkPadding_ffd image1 padding1 (irtkPadding_ffd image2 padding2 ffd)) i j k
  ∧
  FFD.GetStatus
    (irtkPadding_ffd image1 padding1 (irtkPadding_ffd image1 padding1 ffd)) i j k
  = FFD.GetStatus (irtkPadding_ffd image1 padding1 ffd) i j k.
Proof.
  assert (∀ imA pA imB pB,
            FFD.GetStatus (irtkPadding_ffd imB pB (irtkPadding_ffd imA pA ffd)) i j k
            = let '((x1, y1, z1), (x2, y2, z2)) := control_box imA ffd i j k in
              let '((x1', y1', z1'), (x2', y2', z2')) := control_box imB ffd i j k in
              if decide (in_lattice ffd i j k) then
                if box_above imA pA x1 y1 z1 x2 y2 z2 &&
                   box_above imB pB x1' y1' z1' x2' y2' z2'
                then FFD.GetStatus ffd i j k else _Passive
              else FFD.GetStatus ffd i j k) as Htwo.
  { intros imA pA imB pB.
    destruct (irtkPadding_ffd_lattice imA pA ffd) as [Hin Hbox].
    rewrite irtkPadding_ffd_at. unfold status_after.
    rewrite Hbox, irtkPadding_ffd_at. unfold status_after.
    destruct (control_box imA ffd i j k) as [[[x1 y1] z1] [[x2 y2] z2]].
    destruct (control_box imB ffd i j k) as [[[x1' y1'] z1'] [[x2' y2'] z2']].
    destruct (decide (in_lattice ffd i j k)) as [Hl|Hl].
    - rewrite decide_True by by apply Hin.
      by destruct (box_above imA pA x1 y1 z1 x2 y2 z2),
                  (box_above imB pB x1' y1' z1' x2' y2' z2').
    - rewrite decide_False by by rewrite Hin. done. }
  split.
  - rewrite !Htwo.
    destruct (control_box image1 ffd i j k) as [[[x1 y1] z1] [[x2 y2] z2]].
    destruct (control_box image2 ffd i j k) as [[[x1' y1'] z1'] [[x2' y2'] z2']].
    by rewrite andb_comm.
  - rewrite Htwo, irtkPadding_ffd_at. unfold status_after.
    destruct (control_box image1 ffd i j k) as [[[x1 y1] z1] [[x2 y2] z2]].
    by rewrite andb_diag.
Qed.

(** X16.  A larger padding value makes no fewer control points passive:
    what is passive after the call with [padding] is passive after the call
    with any [padding'] above it. *)
Theorem irtkPadding_ffd_monotone (image : irtkGreyImage)
    (padding padding' : Z) (ffd : FFD.t) (i j k : Z) :
  padding ≤ padding' →
  FFD.GetStatus (irtkPadding_ffd image padding ffd) i j k = _Passive →
  FFD.GetStatus (irtkPadding_ffd image padding' ffd) i j k = _Passive.
Proof.
  intros Hle. rewrite !irtkPadding_ffd_at. unfold status_after.
  destruct (control_box image ffd i j k) as [[[x1 y1] z1] [[x2 y2] z2]].
  case_decide; [|done].
  destruct (box_above image padding x1 y1 z1 x2 y2 z2) eqn:E.
  - intros ->. by destruct (box_above image padding' x1 y1 z1 x2 y2 z2).
  - by rewrite (box_above_mono _ _ _ _ _ _ _ _ _ Hle E).
Qed.

Lemma irtkPadding_ffd_monotone_witness :
  let image := mkImage 4 1 1 1 [-1; -1; 7; -1] in
  let ffd := FFD.mk 2 1 1 (λ i _ _, i)
               (λ _ index, ((2 * index, 0, 0), (2 * index + 1, 0, 0)))
               (λ _ _ _, _Active) in
  FFD.GetStatus (irtkPadding_ffd image 0 ffd) 0 0 0 = _Passive.
Proof.
  apply (irtkPadding_ffd_monotone (mkImage 4 1 1 1 [-1; -1; 7; -1]) (-1) 0
           (FFD.mk 2 1 1 (λ i _ _, i)
              (λ _ index, ((2 * index, 0, 0), (2 * index + 1, 0, 0)))
              (λ _ _ _, _Active)) 0 0 0).
  - lia.
  - reflexivity.
Defined.

(** X17.  A control point of the lattice whose bounding box is empty, or
    any control point of the lattice when the image has no frame, is made
    passive: no voxel is there to keep it active. *)
Theorem irtkPadding_ffd_empty_box (image : irtkGreyImage) (padding : Z)
    (ffd : FFD.t) (i j k x1 y1 z1 x2 y2 z2 : Z) :
  in_lattice ffd i j k →
  control_box image ffd i j k = ((x1, y1, z1), (x2, y2, z2)) →
  GetT image ≤ 0 ∨ x2 < x1 ∨ y2 < y1 ∨ z2 < z1 →
  FFD.GetStatus (irtkPadding_ffd image padding ffd) i j k = _Passive.
Proof.
  intros Hin Ebox Hempty. rewrite irtkPadding_ffd_at. unfold status_after.
  rewrite Ebox, decide_True by done.
  assert (box_above image padding x1 y1 z1 x2 y2 z2 = false) as ->; [|done].
  apply box_above_false. unfold box_below. intros. lia.
Qed.

Lemma irtkPadding_ffd_empty_box_witness :
  FFD.GetStatus
    (irtkPadding_ffd (mkImage 4 1 1 1 [9; 9; 9; 9]) 0
       (FFD.mk 2 1 1 (λ i _ _, i) (λ _ index, ((1, 0, 0), (0, 0, 0)))
          (λ _ _ _, _Active))) 1 0 0
  = _Passive.
Proof.
  apply (irtkPadding_ffd_empty_box (mkImage 4 1 1 1 [9; 9; 9; 9]) 0
           (FFD.mk 2 1 1 (λ i _ _, i) (λ _ index, ((1, 0, 0), (0, 0, 0)))
              (λ _ _ _, _Active)) 1 0 0 1 0 0 0 0 0).
  - unfold in_lattice. simpl. lia.
  - reflexivity.
  - right. left. lia.
Defined.

(** ** GuessResolution and GuessPadding: what the answers depend on *)

Lemma SFleb_nan_l x : SFleb S754_nan x = false.
Proof. by destruct x. Qed.

Lemma SFleb_nan_r x : SFleb x S754_nan = false.
Proof. by destruct x as [[]|[]| |[]]. Qed.

Lemma SFltb_nan_l x : SFltb S754_nan x = false.
Proof. by destruct x. Qed.

Lemma SFltb_nan_r x : SFltb x S754_nan = false.
Proof. by destruct x as [[]|[]| |[]]. Qed.

(** X18.  With a NaN among its arguments [GuessResolution] answers its
    last argument, whatever the other sizes are: the overload with three
    arguments answers [zsize], the one with two answers [ysize]. *)
Theorem GuessResolution_with_nan (xsize ysize zsize : double) :
  (is_nan xsize || is_nan ysize || is_nan zsize = true →
   GuessResolution xsize ysize zsize = zsize) ∧
  (is_nan xsize || is_nan ysize = true →
   GuessResolution2 xsize ysize = ysize).
Proof.
  unfold GuessResolution, GuessResolution2, double_ge, double_gt. split.
  - rewrite !orb_true_iff. intros [[Hn|Hn]|Hn].
    + destruct xsize; try done;
      by rewrite ?SFleb_nan_r, ?SFleb_nan_l.
    + destruct ysize; try done;
      by rewrite ?SFleb_nan_r, ?SFleb_nan_l.
    + destruct zsize; try done;
      by rewrite ?SFleb_nan_l, ?andb_false_r.
  - rewrite orb_true_iff. intros [Hn|Hn].
    + destruct xsize; try done; by rewrite ?SFltb_nan_r.
    + destruct ysize; try done; by rewrite ?SFltb_nan_l.
Qed.

Lemma GuessResolution_with_nan_witness :
  let one := S754_finite false 4503599627370496 (-52) in
  let two := S754_finite false 4503599627370496 (-51) in
  GuessResolution S754_nan two one = one ∧ GuessResolution2 S754_nan two = two.
Proof.
  split;
    apply (GuessResolution_with_nan S754_nan
             (S754_finite false 4503599627370496 (-51))
             (S754_finite false 4503599627370496 (-52)));
    reflexivity.
Defined.

(** X19.  [GuessPadding] reads the eight corners of frame 0 and nothing
    else: writing any value to a voxel that is not one of them leaves its
    answer as it was. *)
Theorem GuessPadding_other_voxel (MIN_GREY : Z) (image : irtkGreyImage)
    (i j k t v : Z) :
  (∀ c, c ∈ corners image → (i, j, k, t) ≠ (c.1.1, c.1.2, c.2, 0)) →
  GuessPadding MIN_GREY (Put image i j k t v) = GuessPadding MIN_GREY image.
Proof.
  intros Hc. unfold GuessPadding.
  destruct (Put_dims image i j k t v) as (-> & -> & -> & _).
  assert (∀ a b c, (a, b, c) ∈ corners image →
            Get (Put image i j k t v) a b c 0 = Get image a b c 0) as Hget.
  { intros a b c Hin. apply Get_Put_other. intros E.
    apply (Hc _ Hin). by rewrite <- E. }
  unfold corners in Hget.
  rewrite !Hget; [done|..]; apply list_elem_of_In; simpl; tauto.
Qed.

Lemma GuessPadding_other_voxel_witness :
  GuessPadding (-32768)
    (Put (mkImage 3 1 1 1 [0; 4; 0]) 1 0 0 0 9)
  = GuessPadding (-32768) (mkImage 3 1 1 1 [0; 4; 0]).
Proof.
  apply (GuessPadding_other_voxel (-32768) (mkImage 3 1 1 1 [0; 4; 0])
           1 0 0 0 9).
  intros c Hc. apply list_elem_of_In in Hc. simpl in Hc.
  repeat (destruct Hc as [<-|Hc]; [done|]). done.
Defined.
